(** * pylons_sdk test harness: the command helper ([inttest], cmd/test_utils/basic.go)
      and the test-context wrapper ([evtesting]).

    The Go code is embedded shallowly.  Package-level variables, the
    pseudo-random source, the external [pylonsd] process and the output sinks
    are threaded through an explicit world; a run-time panic (index out of
    range, nil dereference) is a result of its own. *)

From stdpp Require Import gmap strings list fin_maps pretty.
From Equations Require Import Equations.
From Stdlib Require Import ZArith Lia Ascii.

Open Scope Z_scope.

(** ** Go values shared by both packages *)

(** The double quote and the newline, which a literal cannot hold. *)
Definition dquote : ascii := "034"%char.
Definition newline : ascii := "010"%char.
Definition q (s : string) : string :=
  String dquote (s +:+ String dquote EmptyString).

(** Go's [error] values, told apart by where they are made. *)
Inductive error : Type :=
| ErrorsNew (msg : string)      (* errors.New(msg) *)
| ExecError (msg : string)      (* returned by cmd.CombinedOutput *)
| DecodeError (msg : string).   (* returned by UnmarshalJSON *)

#[global] Instance error_eq_dec : EqDecision error.
Proof. solve_decision. Defined.

(** A computation either yields a value or panics. *)
Inductive result (A : Type) : Type :=
| Ok (a : A)
| Panic (msg : string).
Arguments Ok {A} a.
Arguments Panic {A} msg.

(** [l[i]] with Go's bounds check. *)
Definition index {A : Type} (l : list A) (i : nat) : result A :=
  match l !! i with
  | Some x => Ok x
  | None => Panic "index out of range"
  end.

(** 64-bit signed arithmetic wraps around. *)
Definition min_int64 : Z := - 2 ^ 63.
Definition max_int64 : Z := 2 ^ 63 - 1.
Definition int64 (z : Z) : Z := (z + 2 ^ 63) mod 2 ^ 64 - 2 ^ 63.

(** ** Package inttest *)
Module Inttest.

(** [strings.Split(s, sep)] for a one-byte separator. *)
Fixpoint Split (s : string) (sep : ascii) : list string :=
  match s with
  | EmptyString => [EmptyString]
  | String c s' =>
      if Ascii.eqb c sep then EmptyString :: Split s' sep
      else match Split s' sep with
           | [] => [String c EmptyString]
           | w :: ws => String c w :: ws
           end
  end.

(** [strings.Join(elems, sep)] *)
Definition Join (elems : list string) (sep : string) : string :=
  String.concat sep elems.

Record CLIOptions := {
  CustomNode : string;
  RestEndpoint : string;
  MaxWaitBlock : Z;
  MaxBroadcast : Z
}.

(** What the helper does to the outside, in order. *)
Inductive Event : Type :=
| EvExec (args : list string) (stdin : string)
         (out : string) (err : option string)   (* one run of the pylonsd binary *)
| EvSleep (ms : Z).                             (* time.Sleep *)

(** The package variable [CLIOpts], how many commands were run and how many
    random numbers were drawn so far, and the trace of outside effects. *)
Record World := {
  CLIOpts : CLIOptions;
  ncmd : nat;
  ndraw : nat;
  events : list Event
}.

Definition IM (A : Type) : Type := World -> result (A * World).

Definition iret {A} (a : A) : IM A := fun w => Ok (a, w).
Definition ibind {A B} (m : IM A) (k : A -> IM B) : IM B :=
  fun w => match m w with
           | Ok (a, w') => k a w'
           | Panic msg => Panic msg
           end.
Definition ilift {A} (r : result A) : IM A :=
  fun w => match r with Ok a => Ok (a, w) | Panic msg => Panic msg end.

Notation "x <- m ;; k" := (ibind m (fun x => k))
  (at level 100, m at next level, right associativity).

Definition getCLIOpts : IM CLIOptions := fun w => Ok (CLIOpts w, w).

Definition emit (e : Event) : IM unit :=
  fun w => Ok (tt, {| CLIOpts := CLIOpts w; ncmd := ncmd w; ndraw := ndraw w;
                      events := events w ++ [e] |}).

(** GetMaxWaitBlock: the configured maximum wait block, default 3 *)
Definition GetMaxWaitBlock : IM Z :=
  opts <- getCLIOpts ;;
  if MaxWaitBlock opts =? 0 then iret 3 else iret (MaxWaitBlock opts).

(** GetMaxBroadcastRetry: the configured maximum retry, default 50 *)
Definition GetMaxBroadcastRetry : IM Z :=
  opts <- getCLIOpts ;;
  if MaxBroadcast opts =? 0 then iret 50 else iret (MaxBroadcast opts).

(** KeyringBackendSetup.  [args[1]] and [args[2]] are read without a length
    check; [&&] reads [args[2]] only after [args[1] == "pylons"]. *)
Definition KeyringBackendSetup (args : list string) : result (list string) :=
  if (length args =? 0)%nat then Ok args
  else
    let newArgs := args ++ ["--keyring-backend"; "test"]%string in
    match index args 0 with
    | Panic msg => Panic msg
    | Ok a0 =>
        if (a0 =? "keys")%string then Ok newArgs
        else if (a0 =? "tx")%string then
          match index args 1 with
          | Panic msg => Panic msg
          | Ok a1 =>
              if (a1 =? "sign")%string then Ok newArgs
              else if (a1 =? "pylons")%string then
                match index args 2 with
                | Panic msg => Panic msg
                | Ok a2 =>
                    if (a2 =? "create-account")%string then Ok newArgs
                    else Ok args
                end
              else Ok args
          end
        else Ok args
    end.

(** *** GetTxHashFromLog and the regular expression it compiles

    The pattern uses three constructs only: literal bytes, dot-star and a
    capturing group around dot-star.  Go's regexp returns the leftmost
    match and, among those, the one a backtracking matcher finds first; the
    star is greedy and the dot matches every byte but the newline. *)
Inductive Item : Type :=
| Lit (c : ascii)
| AnyStar (capturing : bool).

Definition literal (s : string) : list Item := Lit <$> String.list_ascii_of_string s.

(** The pattern of GetTxHashFromLog: quote txhash quote colon, dot-star,
    quote, captured dot-star, quote. *)
Definition txhash_pattern : list Item :=
  literal (q "txhash" +:+ ":") ++
  [AnyStar false; Lit dquote; AnyStar true; Lit dquote].

(** A match of the pattern at the start of the text: the matched text and
    the captured groups. *)
Fixpoint match_here (p : list Item) : string -> option (string * list string) :=
  match p with
  | [] => fun _ => Some (EmptyString, [])
  | Lit c :: p' =>
      fun s =>
        match s with
        | String c' s' =>
            if Ascii.eqb c' c
            then '(m, gs) ← match_here p' s'; Some (String c' m, gs)
            else None
        | EmptyString => None
        end
  | AnyStar capturing :: p' =>
      fix star (s : string) : option (string * list string) :=
        let stop :=
          '(m, gs) ← match_here p' s;
          Some (m, if capturing then EmptyString :: gs else gs) in
        match s with
        | String c s' =>
            if Ascii.eqb c newline then stop
            else
              match star s' with
              | Some (m, gs) =>
                  Some (String c m,
                        if capturing
                        then match gs with
                             | g :: gs' => String c g :: gs'
                             | [] => []
                             end
                        else gs)
              | None => stop
              end
        | EmptyString => stop
        end
  end.

(** [re.FindSubmatch]: the whole match followed by the groups, or nil. *)
Fixpoint FindSubmatch (re : list Item) (s : string) : list string :=
  match match_here re s with
  | Some (m, gs) => m :: gs
  | None =>
      match s with
      | String _ s' => FindSubmatch re s'
      | EmptyString => []
      end
  end.

(** GetTxHashFromLog *)
Definition GetTxHashFromLog (result : string) : string :=
  let caTxHashSearch := FindSubmatch txhash_pattern result in
  if (length caTxHashSearch <=? 1)%nat then EmptyString
  else default EmptyString (caTxHashSearch !! 1%nat).

(** [strings.Contains] *)
Fixpoint Contains (s substr : string) : bool :=
  String.prefix substr s ||
  match s with
  | String _ s' => Contains s' substr
  | EmptyString => false
  end.

(** Exists: whether an element occurs in a slice *)
Fixpoint Exists (slice : list string) (val : string) : bool :=
  match slice with
  | [] => false
  | item :: rest => if (item =? val)%string then true else Exists rest val
  end.

(** A text that lacks a byte. *)
Fixpoint lacks (c : ascii) (s : string) : bool :=
  match s with
  | EmptyString => true
  | String c' s' => negb (Ascii.eqb c' c) && lacks c s'
  end.

(** A text that stops here or goes on with a new line. *)
Definition line_end (s : string) : Prop :=
  match s with
  | EmptyString => True
  | String c _ => c = newline
  end.

(** What a star that consumed [l] adds to a match of the rest. *)
Definition consumed (capturing : bool) (l : string)
    (r : string * list string) : string * list string :=
  (l +:+ r.1,
   if capturing
   then match r.2 with
        | g :: gs => (l +:+ g) :: gs
        | [] => []
        end
   else r.2).

(** Where a star stops: the rest of the pattern matches from here. *)
Definition star_stop (capturing : bool) (p : list Item) (s : string)
  : option (string * list string) :=
  '(m, gs) ← match_here p s;
  Some (m, if capturing then EmptyString :: gs else gs).

(** The pattern after the key, and its tails. *)
Definition pat_close : list Item := [Lit dquote].
Definition pat_group : list Item := AnyStar true :: pat_close.
Definition pat_open : list Item := Lit dquote :: pat_group.
Definition pat_gap : list Item := AnyStar false :: pat_open.

(** *** GetLogFieldsFromMsgs *)

(** A value of interface type stored in a field map: a string, or a value of
    a type declared outside this package, kept as it is rendered. *)
Inductive FieldValue : Type :=
| FString (s : string)
| FOpaque (rendering : string).

(** The messages of package msgs, by the fields GetLogFieldsFromMsgs reads
    of each; the structs themselves are declared outside these sources.
    [MsgOther] stands for any message type the switch has no case for. *)
Inductive Msg : Type :=
| MsgCreateCookbook (Name Sender : FieldValue)
| MsgUpdateCookbook (ID Sender : FieldValue)
| MsgCreateRecipe (Name Sender : FieldValue)
| MsgUpdateRecipe (Name Sender : FieldValue)
| MsgExecuteRecipe (RecipeID Sender : FieldValue)
| MsgEnableRecipe (RecipeID Sender : FieldValue)
| MsgDisableRecipe (RecipeID Sender : FieldValue)
| MsgCheckExecution (ExecID Sender : FieldValue)
| MsgCreateTrade (ExtraInfo Sender : FieldValue)
| MsgFulfillTrade (TradeID Sender : FieldValue)
| MsgFiatItem (Sender : FieldValue)
| MsgUpdateItemString (ItemID Sender : FieldValue)
| MsgOther.

(** The assignments of one case of the type switch, in order: the key
    after the prefix, and the value. *)
Definition msg_entries (msg : Msg) : list (string * FieldValue) :=
  match msg with
  | MsgCreateCookbook Name Sender =>
      [("type", FString "MsgCreateCookbook"); ("cb_name", Name); ("sender", Sender)]
  | MsgUpdateCookbook ID Sender =>
      [("type", FString "MsgUpdateCookbook"); ("cb_ID", ID); ("sender", Sender)]
  | MsgCreateRecipe Name Sender =>
      [("type", FString "MsgCreateRecipe"); ("rcp_name", Name); ("sender", Sender)]
  | MsgUpdateRecipe Name Sender =>
      [("type", FString "MsgUpdateRecipe"); ("rcp_name", Name); ("sender", Sender)]
  | MsgExecuteRecipe RecipeID Sender =>
      [("type", FString "MsgExecuteRecipe"); ("rcp_id", RecipeID); ("sender", Sender)]
  | MsgEnableRecipe RecipeID Sender =>
      [("type", FString "MsgEnableRecipe"); ("rcp_id", RecipeID); ("sender", Sender)]
  | MsgDisableRecipe RecipeID Sender =>
      [("type", FString "MsgDisableRecipe"); ("rcp_id", RecipeID); ("sender", Sender)]
  | MsgCheckExecution ExecID Sender =>
      [("type", FString "MsgCheckExecution"); ("exec_id", ExecID); ("sender", Sender)]
  | MsgCreateTrade ExtraInfo Sender =>
      [("type", FString "MsgCreateTrade"); ("trade_info", ExtraInfo); ("sender", Sender)]
  | MsgFulfillTrade TradeID Sender =>
      [("type", FString "MsgFulfillTrade"); ("trade_id", TradeID); ("sender", Sender)]
  | MsgFiatItem Sender =>
      [("type", FString "MsgFiatItem"); ("sender", Sender)]
  | MsgUpdateItemString ItemID Sender =>
      [("type", FString "MsgUpdateItemString"); ("item_id", ItemID); ("sender", Sender)]
  | MsgOther => []
  end%string.

(** [ikeypref]: the index is left out when there is one message only. *)
Definition ikeypref (len idx : nat) : string :=
  if (len =? 1)%nat then "tx_msg_"%string
  else "tx_msg" +:+ pretty idx +:+ "_".

(** The body of the loop for one message: [fields[ikeypref+key] = value]
    for each assignment of its case. *)
Definition put_msg (pref : string) (msg : Msg)
    (fields : gmap string FieldValue) : gmap string FieldValue :=
  foldl (fun f kv => <[pref +:+ kv.1 := kv.2]> f) fields (msg_entries msg).

(** [for idx, msg := range txMsgs] *)
Fixpoint msgs_loop (len : nat) (txMsgs : list Msg) (idx : nat)
    (fields : gmap string FieldValue) : gmap string FieldValue :=
  match txMsgs with
  | [] => fields
  | msg :: rest =>
      msgs_loop len rest (S idx) (put_msg (ikeypref len idx) msg fields)
  end.

(** GetLogFieldsFromMsgs fetch mandatory keys from msgs for debugging *)
Definition GetLogFieldsFromMsgs (txMsgs : list Msg) : gmap string FieldValue :=
  msgs_loop (length txMsgs) txMsgs 0 ∅.


(** Every pair the loop assigns, in order: the full key and the value. *)
Fixpoint all_entries (len : nat) (txMsgs : list Msg) (idx : nat)
  : list (string * FieldValue) :=
  match txMsgs with
  | [] => []
  | msg :: rest =>
      (prod_map (String.append (ikeypref len idx)) id <$> msg_entries msg)
      ++ all_entries len rest (S idx)
  end.

(** A decimal digit. *)
Definition is_digit (c : ascii) : bool :=
  (48 <=? nat_of_ascii c)%nat && (nat_of_ascii c <=? 57)%nat.

Fixpoint digits (s : string) : bool :=
  match s with
  | EmptyString => true
  | String c s' => is_digit c && digits s'
  end.

Section External.

(** The pseudo-random source: the raw value of the k-th draw. *)
Variable rand_source : nat -> nat.

(** The pylonsd binary: combined output and error message, if any, of the
    k-th run. *)
Variable pylonsd : nat -> list string -> string -> string * option string.

(** [rand.Intn(n)]: panics for [n <= 0], else a value below [n]. *)
Definition Intn (n : nat) : IM nat :=
  fun w =>
    if (n =? 0)%nat then Panic "invalid argument to Intn"
    else Ok ((rand_source (ndraw w) mod n)%nat,
             {| CLIOpts := CLIOpts w; ncmd := ncmd w; ndraw := S (ndraw w);
                events := events w |}).

(** NodeFlagSetup.  [args[0]] is read without a length check. *)
Definition NodeFlagSetup (args : list string) : IM (list string) :=
  opts <- getCLIOpts ;;
  if (0 <? String.length (CustomNode opts))%nat then
    a0 <- ilift (index args 0) ;;
    if ((a0 =? "query") || (a0 =? "tx") || (a0 =? "status"))%string then
      let customNodes := Split (CustomNode opts) ","%char in
      randNodeIndex <- Intn (length customNodes) ;;
      randNode <- ilift (index customNodes randNodeIndex) ;;
      iret (args ++ ["--node"%string; randNode])
    else iret args
  else iret args.

(** [exec.Command(...).CombinedOutput()] on the pylonsd binary; the mutex
    around it only serialises concurrent callers. *)
Definition CombinedOutput (args : list string) (stdin : string)
  : IM (string * option error) :=
  fun w =>
    let '(res, err) := pylonsd (ncmd w) args stdin in
    Ok ((res, ExecError <$> err),
        {| CLIOpts := CLIOpts w; ncmd := S (ncmd w); ndraw := ndraw w;
           events := events w ++ [EvExec args stdin res err] |}).

(** RunPylonsd: the output, the log line and the error. *)
Definition RunPylonsd (args : list string) (stdinInput : string)
  : IM (string * string * option error) :=
  args1 <- NodeFlagSetup args ;;
  args2 <- ilift (KeyringBackendSetup args1) ;;
  out <- CombinedOutput args2 stdinInput ;;
  let '(res, err) := out in
  iret (res,
        q ("pylonsd " +:+ Join args2 " ") +:+ " ==>" +:+ String newline
          (res +:+ String newline EmptyString),
        err).

(** The part of [ctypes.ResultStatus] the helper reads:
    [SyncInfo.LatestBlockHeight], an int64. *)
Record ResultStatus := { LatestBlockHeight : Z }.

(** [GetAminoCdc().UnmarshalJSON(dsBytes, &ds)] *)
Variable UnmarshalStatus : string -> ResultStatus + string.

(** GetDaemonStatus *)
Definition GetDaemonStatus : IM (option ResultStatus * string * option error) :=
  r <- RunPylonsd ["status"%string] "" ;;
  let '(dsBytes, logstr, err) := r in
  match err with
  | Some e => iret (None, logstr, Some e)
  | None =>
      match UnmarshalStatus dsBytes with
      | inr e => iret (None, logstr, Some (DecodeError e))
      | inl ds => iret (Some ds, logstr, None)
      end
  end.

(** [ds.SyncInfo] through the pointer GetDaemonStatus returned. *)
Definition deref_status (ds : option ResultStatus) : result ResultStatus :=
  match ds with
  | Some d => Ok d
  | None => Panic "nil pointer dereference"
  end.

Definition timeout_error : error :=
  ErrorsNew "You are waiting too long time for interval".

(** The loop of WaitForBlockInterval, [for counter < 300*interval].  The
    increment cannot wrap: [counter] is below a 64-bit bound. *)
Equations? poll_loop (interval currentBlock counter : Z) (w : World)
  : result (option error * World)
  by wf (Z.to_nat (int64 (300 * interval) - counter)) lt :=
poll_loop interval currentBlock counter w
  with Z_lt_dec counter (int64 (300 * interval)) => {
  | right _ => Ok (Some timeout_error, w)
  | left Hlt =>
      match GetDaemonStatus w with
      | Panic msg => Panic msg
      | Ok ((ds, _, Some e), w1) => Ok (Some e, w1)
      | Ok ((ds, _, None), w1) =>
          match deref_status ds with
          | Panic msg => Panic msg
          | Ok d =>
              if LatestBlockHeight d >=? int64 (currentBlock + interval)
              then Ok (None, w1)
              else
                match emit (EvSleep 100) w1 with
                | Panic msg => Panic msg
                | Ok (_, w2) => poll_loop interval currentBlock (counter + 1) w2
                end
          end
      end }.
Proof. lia. Qed.

(** WaitForBlockInterval *)
Definition WaitForBlockInterval (interval : Z) : IM (option error) :=
  r <- GetDaemonStatus ;;
  let '(ds, _, err) := r in
  match err with
  | Some e => iret (Some e)
  | None =>
      d <- ilift (deref_status ds) ;;
      let currentBlock := LatestBlockHeight d in
      poll_loop interval currentBlock 1
  end.

(** WaitForNextBlock *)
Definition WaitForNextBlock : IM (option error) := WaitForBlockInterval 1.

(** What one status query observed: the error, or the block height. *)
Definition observation (ev : Event) : option (error + Z) :=
  match ev with
  | EvExec _ _ _ (Some e) => Some (inl (ExecError e))
  | EvExec _ _ out None =>
      Some (match UnmarshalStatus out with
            | inr e => inl (DecodeError e)
            | inl ds => inr (LatestBlockHeight ds)
            end)
  | EvSleep _ => None
  end.

Definition observations (evs : list Event) : list (error + Z) :=
  omap observation evs.

(** Polls of the loop, each followed by a sleep of 100ms unless it is the
    last event. *)
Fixpoint spaced (evs : list Event) : bool :=
  match evs with
  | [] => true
  | EvExec _ _ _ _ :: rest =>
      match rest with
      | [] => true
      | EvSleep ms :: rest' => (ms =? 100) && spaced rest'
      | EvExec _ _ _ _ :: _ => false
      end
  | EvSleep _ :: _ => false
  end.

Definition status_error (e : error) : bool :=
  match e with ErrorsNew _ => false | _ => true end.

(** The polling contract of WaitForBlockInterval, in the words of the
    specification: at most [300 * interval] status queries, the first one
    followed by polls 100ms apart; nil as soon as a polled height reaches
    the first height plus [interval]; the status error as soon as a query
    fails; the timeout error when the cap is reached without either. *)
Definition polling_contract (interval : Z) (w : World) : Prop :=
  exists r w' ev0 evs,
    WaitForBlockInterval interval w = Ok (r, w') /\
    events w' = events w ++ ev0 :: evs /\
    spaced evs = true /\
    Z.of_nat (length (observations (ev0 :: evs))) <= 300 * interval /\
    match r with
    | None =>
        exists h0 hs h,
          observations (ev0 :: evs) = inr h0 :: (inr <$> hs) ++ [inr h] /\
          h0 + interval <= h /\
          Forall (fun x => x < h0 + interval) hs
    | Some e =>
        if status_error e
        then observations (ev0 :: evs) = [inl e] \/
             exists h0 hs,
               observations (ev0 :: evs) = inr h0 :: (inr <$> hs) ++ [inl e] /\
               Forall (fun x => x < h0 + interval) hs
        else e = timeout_error /\
             exists h0 hs,
               observations (ev0 :: evs) = inr h0 :: (inr <$> hs) /\
               Forall (fun x => x < h0 + interval) hs /\
               Z.of_nat (length (observations (ev0 :: evs))) = 300 * interval
    end.

(** The argument shapes, in the words of the specification. *)
Definition keyring_shape (args : list string) : bool :=
  match args with
  | a0 :: rest =>
      (a0 =? "keys")%string ||
      ((a0 =? "tx")%string &&
       match rest with
       | a1 :: rest' =>
           (a1 =? "sign")%string ||
           ((a1 =? "pylons")%string &&
            match rest' with
            | a2 :: _ => (a2 =? "create-account")%string
            | [] => false
            end)
       | [] => false
       end)
  | [] => false
  end.

Definition node_shape (args : list string) : bool :=
  match args with
  | a0 :: _ => ((a0 =? "query") || (a0 =? "tx") || (a0 =? "status"))%string
  | [] => false
  end.

Definition node_configured (w : World) : bool :=
  (0 <? String.length (CustomNode (CLIOpts w)))%nat.

(** The world after one random draw. *)
Definition drew (w : World) : World :=
  {| CLIOpts := CLIOpts w; ncmd := ncmd w; ndraw := S (ndraw w);
     events := events w |}.

(** What the loop of WaitForBlockInterval leaves behind after at most [n]
    polls against a target height. *)
Definition loop_post (target : Z) (r : option error) (obs : list (error + Z))
    (n : nat) : Prop :=
  match r with
  | None =>
      exists hs h, obs = (inr <$> hs) ++ [inr h] /\ target <= h /\
                   Forall (fun x => x < target) hs /\ (length hs < n)%nat
  | Some e =>
      if status_error e
      then exists hs, obs = (inr <$> hs) ++ [inl e] /\
                      Forall (fun x => x < target) hs /\ (length hs < n)%nat
      else e = timeout_error /\
           exists hs, obs = inr <$> hs /\
                      Forall (fun x => x < target) hs /\ length hs = n
  end.

(** An event WaitForBlockInterval may add: a status query or a sleep of
    100ms. *)
Definition poll_event (ev : Event) : Prop :=
  match ev with
  | EvExec args stdin _ _ => hd_error args = Some "status"%string /\ stdin = EmptyString
  | EvSleep ms => ms = 100
  end.

(** *** Facts about the helpers *)

Lemma int64_id z : min_int64 <= z <= max_int64 -> int64 z = z.
Proof.
  unfold int64, min_int64, max_int64. intros H.
  rewrite Z.mod_small; lia.
Qed.

Lemma Split_not_nil s sep : Split s sep <> [].
Proof.
  destruct s as [|c s]; simpl; [discriminate|].
  destruct (Ascii.eqb c sep); [discriminate|].
  destruct (Split s sep); discriminate.
Qed.

Lemma index_mod_elem {A : Type} (l : list A) (r : nat) :
  l <> [] -> exists x, index l (r mod length l)%nat = Ok x /\ x ∈ l.
Proof.
  intros Hl. unfold index.
  assert (Hlt : (r mod length l < length l)%nat).
  { apply Nat.mod_upper_bound. destruct l; [congruence | simpl; lia]. }
  destruct (lookup_lt_is_Some_2 l _ Hlt) as [x Hx].
  exists x. rewrite Hx. split; [reflexivity|].
  apply list_elem_of_lookup. eauto.
Qed.

Lemma NodeFlagSetup_spec args w :
  match NodeFlagSetup args w with
  | Ok (args', w') =>
      if node_shape args && node_configured w
      then w' = drew w /\
           exists entry, entry ∈ Split (CustomNode (CLIOpts w)) ","%char /\
                         args' = args ++ ["--node"%string; entry]
      else w' = w /\ args' = args
  | Panic _ => args = [] /\ node_configured w = true
  end.
Proof.
  unfold NodeFlagSetup, ibind, getCLIOpts, node_configured.
  destruct (0 <? String.length (CustomNode (CLIOpts w)))%nat eqn:Hn.
  2: { rewrite andb_false_r. done. }
  destruct args as [|a0 rest]; [done|].
  unfold index, ilift. simpl.
  destruct ((a0 =? "query") || (a0 =? "tx") || (a0 =? "status"))%string; [|done].
  simpl. unfold Intn.
  pose proof (Split_not_nil (CustomNode (CLIOpts w)) ","%char) as Hne.
  destruct (length (Split (CustomNode (CLIOpts w)) ",") =? 0)%nat eqn:Hl.
  { apply Nat.eqb_eq in Hl. destruct (Split (CustomNode (CLIOpts w)) ","); [congruence | discriminate]. }
  simpl.
  destruct (index_mod_elem _ (rand_source (ndraw w)) Hne) as (x & Hx & Hin).
  unfold index in Hx.
  destruct (Split (CustomNode (CLIOpts w)) "," !! _); [|discriminate].
  injection Hx as ->. unfold iret. split; [reflexivity|]. eauto.
Qed.

Ltac case_streq :=
  repeat match goal with
         | |- context [String.eqb ?a ?b] =>
             destruct (String.eqb_spec a b); subst; simpl; try done
         end.

Lemma KeyringBackendSetup_spec args :
  match KeyringBackendSetup args with
  | Ok args' =>
      args' = args ++ (if keyring_shape args
                       then ["--keyring-backend"; "test"]%string else [])
  | Panic _ => args = ["tx"]%string \/ args = ["tx"; "pylons"]%string
  end.
Proof.
  unfold KeyringBackendSetup, index.
  destruct args as [|a0 [|a1 [|a2 rest]]]; simpl;
    rewrite ?app_nil_r; try done; case_streq; rewrite ?app_nil_r; auto.
Qed.

Lemma keyring_shape_node_flag args entry :
  keyring_shape (args ++ ["--node"%string; entry]) = keyring_shape args.
Proof.
  destruct args as [|a0 [|a1 [|a2 rest]]]; simpl; try done; case_streq.
Qed.

Lemma RunPylonsd_spec (args : list string) (stdin : string) (w : World) :
  match RunPylonsd args stdin w with
  | Ok ((res, logstr, err), w') =>
      exists node_part keyring_part e,
        CLIOpts w' = CLIOpts w /\ ncmd w' = S (ncmd w) /\
        events w' = events w ++
                    [EvExec (args ++ node_part ++ keyring_part) stdin res e] /\
        err = ExecError <$> e /\
        (res, e) = pylonsd (ncmd w) (args ++ node_part ++ keyring_part) stdin /\
        keyring_part = (if keyring_shape args
                        then ["--keyring-backend"; "test"]%string else []) /\
        (if node_shape args && node_configured w
         then exists entry, entry ∈ Split (CustomNode (CLIOpts w)) ","%char /\
                            node_part = ["--node"%string; entry]
         else node_part = [])
  | Panic _ =>
      (args = [] /\ node_configured w = true) \/
      (node_configured w = false /\
       (args = ["tx"]%string \/ args = ["tx"; "pylons"]%string))
  end.
Proof.
  unfold RunPylonsd, ibind.
  pose proof (NodeFlagSetup_spec args w) as HN.
  destruct (NodeFlagSetup args w) as [[args1 w1]|msg]; [|by left].
  pose proof (KeyringBackendSetup_spec args1) as HK.
  unfold ilift. destruct (KeyringBackendSetup args1) as [args2|msg].
  - unfold CombinedOutput.
    destruct (pylonsd (ncmd w1) args2 stdin) as [res err] eqn:Hrun. simpl.
    destruct (node_shape args && node_configured w) eqn:Hshape.
    + destruct HN as (-> & entry & Hin & ->).
      rewrite keyring_shape_node_flag in HK. subst args2.
      exists ["--node"%string; entry], (if keyring_shape args
                        then ["--keyring-backend"; "test"]%string else []), err.
      rewrite <- !app_assoc in *. simpl in *.
      repeat split; eauto.
    + destruct HN as (-> & ->). subst args2.
      exists [], (if keyring_shape args
                  then ["--keyring-backend"; "test"]%string else []), err.
      simpl. repeat split; eauto.
  - destruct (node_shape args && node_configured w) eqn:Hshape.
    + destruct HN as (_ & entry & _ & ->).
      destruct args as [|a0 [|a1 [|a2 rest]]]; simpl in HK;
        destruct HK as [HK|HK]; try discriminate; simpl in Hshape;
        injection HK as -> ; discriminate.
    + destruct HN as (-> & ->). right.
      split; [|exact HK].
      destruct HK as [-> | ->]; simpl in Hshape; exact Hshape.
Qed.

(** C4. RunPylonsd hands the external command the arguments it was given,
    followed by one [--node <entry>] pair when the first argument is query,
    tx or status and a node is configured (the entry being an element of the
    comma-separated node list), followed by [--keyring-backend test] when
    the arguments have one of the three keyring shapes; nothing else is
    changed.  The only runs that do not reach the command are the index
    panics on an empty list with a node configured and on [tx] or
    [tx pylons] with none. *)
Theorem RunPylonsd_rewrites_args (args : list string) (stdin : string) (w : World) :
  match RunPylonsd args stdin w with
  | Ok ((res, logstr, err), w') =>
      exists node_part keyring_part e,
        events w' = events w ++
                    [EvExec (args ++ node_part ++ keyring_part) stdin res e] /\
        (res, e) = pylonsd (ncmd w) (args ++ node_part ++ keyring_part) stdin /\
        keyring_part = (if keyring_shape args
                        then ["--keyring-backend"; "test"]%string else []) /\
        (if node_shape args && node_configured w
         then exists entry, entry ∈ Split (CustomNode (CLIOpts w)) ","%char /\
                            node_part = ["--node"%string; entry]
         else node_part = [])
  | Panic _ =>
      (args = [] /\ node_configured w = true) \/
      (node_configured w = false /\
       (args = ["tx"]%string \/ args = ["tx"; "pylons"]%string))
  end.
Proof.
  pose proof (RunPylonsd_spec args stdin w) as H.
  destruct (RunPylonsd args stdin w) as [[[[res logstr] err] w']|msg]; [|exact H].
  destruct H as (np & kp & e & _ & _ & Hev & _ & Hrun & Hk & Hn).
  exists np, kp, e. auto.
Qed.

(** C10. Neither function is total: KeyringBackendSetup reads [args[1]]
    (and [args[2]]) of a list that starts with tx without checking its
    length, and NodeFlagSetup reads [args[0]] of an empty list whenever a
    node is configured, as it is by default. *)
Theorem arg_setup_index_panics :
  KeyringBackendSetup ["tx"]%string = Panic "index out of range" /\
  KeyringBackendSetup ["tx"; "pylons"]%string = Panic "index out of range" /\
  NodeFlagSetup []
    {| CLIOpts := {| CustomNode := "tcp://localhost:26657"; RestEndpoint := "";
                     MaxWaitBlock := 0; MaxBroadcast := 0 |};
       ncmd := 0; ndraw := 0; events := [] |} = Panic "index out of range".
Proof. repeat split; reflexivity. Qed.

Lemma GetDaemonStatus_spec w :
  exists ev logstr w',
    events w' = events w ++ [ev] /\
    match observation ev with
    | Some (inl e) =>
        status_error e = true /\
        GetDaemonStatus w = Ok ((None, logstr, Some e), w')
    | Some (inr h) =>
        GetDaemonStatus w = Ok ((Some {| LatestBlockHeight := h |}, logstr, None), w')
    | None => False
    end.
Proof.
  unfold GetDaemonStatus, ibind.
  pose proof (RunPylonsd_spec ["status"%string] "" w) as HR.
  destruct (RunPylonsd ["status"%string] "" w) as [[[[res logstr] err] w1]|msg].
  2: { destruct HR as [[? _]|[_ [?|?]]]; discriminate. }
  destruct HR as (np & kp & e & _ & _ & Hev & -> & _).
  exists (EvExec (["status"%string] ++ np ++ kp) "" res e), logstr, w1.
  split; [exact Hev|].
  destruct e as [e|]; simpl; [done|].
  destruct (UnmarshalStatus res) as [[h]|e]; simpl; done.
Qed.

Lemma poll_loop_spec interval currentBlock (n : nat) :
  forall counter w,
    Z.to_nat (int64 (300 * interval) - counter) = n ->
    exists r w' evs,
      poll_loop interval currentBlock counter w = Ok (r, w') /\
      events w' = events w ++ evs /\
      spaced evs = true /\
      loop_post (int64 (currentBlock + interval)) r (observations evs) n.
Proof.
  induction n as [|n IH]; intros counter w Hn; simp poll_loop;
    destruct (Z_lt_dec counter (int64 (300 * interval))) as [Hlt|Hge]; simpl;
    try lia.
  - exists (Some timeout_error), w, []. rewrite app_nil_r.
    repeat split; try done. exists []. done.
  - destruct (GetDaemonStatus_spec w) as (ev & logstr & w1 & Hev & Hobs).
    destruct (observation ev) as [[e|h]|] eqn:Hob; [| |done].
    + destruct Hobs as [Hse ->].
      exists (Some e), w1, [ev]. repeat split; try done.
      { destruct ev; simpl in *; done. }
      unfold loop_post. rewrite Hse. exists []. simpl. rewrite Hob.
      split_and!; [done|done|lia].
    + rewrite Hobs. simpl.
      destruct (h >=? int64 (currentBlock + interval)) eqn:Hcmp.
      * exists None, w1, [ev]. repeat split; try done.
        { destruct ev; simpl in *; done. }
        exists [], h. simpl. rewrite Hob. split_and!; [done|lia|done|lia].
      * destruct (IH (counter + 1) {| CLIOpts := CLIOpts w1; ncmd := ncmd w1;
             ndraw := ndraw w1; events := events w1 ++ [EvSleep 100] |})
          as (r & w' & evs & -> & Hevs & Hsp & Hpost); [lia|].
        exists r, w', (ev :: EvSleep 100 :: evs).
        split; [done|]. split.
        { rewrite Hevs. simpl. rewrite Hev, <- !app_assoc. done. }
        split.
        { destruct ev; simpl in *; done. }
        assert (Hobs' : observations (ev :: EvSleep 100 :: evs)
                        = inr h :: observations evs).
        { unfold observations. simpl. rewrite Hob. done. }
        rewrite Hobs'. unfold loop_post in *.
        assert (Hh : h < int64 (currentBlock + interval)) by lia.
        destruct r as [e|].
        -- destruct (status_error e).
           ++ destruct Hpost as (hs & -> & HF & Hl).
              exists (h :: hs). split_and!; [done | by constructor | simpl; lia].
           ++ destruct Hpost as (-> & hs & -> & HF & Hl).
              split; [done|]. exists (h :: hs).
              split_and!; [done | by constructor | simpl; lia].
        -- destruct Hpost as (hs & h' & -> & Hle & HF & Hl).
           exists (h :: hs), h'.
           split_and!; [done | done | by constructor | simpl; lia].
Qed.

Lemma observation_height ev h :
  observation ev = Some (inr h) ->
  exists args stdin out ds,
    ev = EvExec args stdin out None /\ UnmarshalStatus out = inl ds /\
    LatestBlockHeight ds = h.
Proof.
  destruct ev as [args stdin out [e|]|ms]; simpl; try done.
  destruct (UnmarshalStatus out) as [ds|e] eqn:Hu; [|done].
  intros [= <-]. eauto 10.
Qed.

(** C3 (amended). For an interval of at least one block whose cap
    [300 * interval] fits in 64 bits, and a first status query that, when it
    succeeds, observes a 64-bit height at least [interval] below the 64-bit
    maximum, WaitForBlockInterval keeps the polling contract.  Nothing is
    asked of the decoder or of the heights polled later. *)
Theorem WaitForBlockInterval_polls (interval : Z) (w : World) :
  1 <= interval ->
  300 * interval <= max_int64 ->
  (forall ds logstr w1,
      GetDaemonStatus w = Ok ((Some ds, logstr, None), w1) ->
      min_int64 <= LatestBlockHeight ds /\
      LatestBlockHeight ds + interval <= max_int64) ->
  polling_contract interval w.
Proof.
  intros Hpos Hcap Hrange. unfold polling_contract, WaitForBlockInterval, ibind.
  destruct (GetDaemonStatus_spec w) as (ev0 & logstr & w1 & Hev0 & Hobs0).
  destruct (observation ev0) as [[e|h0]|] eqn:Hob0; [| |done].
  - destruct Hobs0 as [Hse ->].
    exists (Some e), w1, ev0, []. unfold iret. split_and!; try done.
    + unfold observations. simpl. rewrite Hob0. simpl. lia.
    + rewrite Hse. left. unfold observations. simpl. by rewrite Hob0.
  - destruct (Hrange _ _ _ Hobs0) as [Hlo Hhi]. simpl in Hlo, Hhi.
    rewrite Hobs0. cbn -[observations poll_loop].
    assert (Hc : int64 (300 * interval) = 300 * interval).
    { apply int64_id. unfold min_int64. lia. }
    assert (Ht : int64 (h0 + interval) = h0 + interval).
    { apply int64_id. lia. }
    destruct (poll_loop_spec interval h0
                (Z.to_nat (int64 (300 * interval) - 1)) 1 w1 eq_refl)
      as (r & w' & evs & Hrun & Hevs & Hsp & Hpost).
    rewrite Ht in Hpost. rewrite Hc in Hpost.
    exists r, w', ev0, evs. split; [exact Hrun|].
    split; [rewrite Hevs, Hev0, <- app_assoc; done|].
    split; [exact Hsp|].
    assert (Hobs : observations (ev0 :: evs) = inr h0 :: observations evs).
    { unfold observations. simpl. by rewrite Hob0. }
    rewrite Hobs. unfold loop_post in Hpost.
    destruct r as [e|].
    + destruct (status_error e).
      * destruct Hpost as (hs & -> & HF & Hl). split.
        { simpl. rewrite length_app, length_fmap. simpl. lia. }
        right. exists h0, hs. done.
      * destruct Hpost as (-> & hs & -> & HF & Hl). split.
        { simpl. rewrite length_fmap. lia. }
        split; [done|]. exists h0, hs. split_and!; try done.
        simpl. rewrite length_fmap. lia.
    + destruct Hpost as (hs & h & -> & Hle & HF & Hl). split.
      { simpl. rewrite length_app, length_fmap. simpl. lia. }
      exists h0, hs, h. done.
Qed.

(** *** Further facts about the command helper *)

Lemma Split_comma_free s sep :
  Forall (fun entry => Forall (fun c => c <> sep) (String.list_ascii_of_string entry))
         (Split s sep).
Proof.
  induction s as [|c s IH]; simpl.
  - by repeat constructor.
  - destruct (Ascii.eqb_spec c sep) as [->|Hne].
    + constructor; [constructor | exact IH].
    + destruct (Split s sep) as [|w ws]; [by repeat constructor|].
      inversion IH as [|? ? Hw Hws]; subst.
      constructor; [simpl; by constructor | exact Hws].
Qed.

(** X1. The entry NodeFlagSetup appends after [--node] is one of the
    comma-separated pieces of the configured node string and holds no comma
    itself; when nothing is appended the arguments come back as they
    were. *)
Theorem NodeFlagSetup_entry_comma_free (args args' : list string) (w w' : World) :
  NodeFlagSetup args w = Ok (args', w') ->
  args' = args \/
  exists entry,
    args' = args ++ ["--node"%string; entry] /\
    entry ∈ Split (CustomNode (CLIOpts w)) ","%char /\
    Forall (fun c => c <> ","%char) (String.list_ascii_of_string entry).
Proof.
  intros Hrun. pose proof (NodeFlagSetup_spec args w) as H.
  rewrite Hrun in H.
  destruct (node_shape args && node_configured w).
  - destruct H as (_ & entry & Hin & ->). right. exists entry.
    split_and!; [done | done |].
    pose proof (Split_comma_free (CustomNode (CLIOpts w)) ","%char) as HF.
    rewrite Forall_forall in HF. by apply HF.
  - destruct H as [_ ->]. by left.
Qed.

(** X2. RunPylonsd cannot hit an index panic on a list of three or more
    arguments, nor on a non-empty list while a node is configured: it runs
    exactly one command, whose arguments start with the given ones and add
    at most four. *)
Theorem RunPylonsd_runs_one_command (args : list string) (stdin : string) (w : World) :
  (3 <= length args)%nat \/ (args <> [] /\ node_configured w = true) ->
  exists res logstr err w' suffix e,
    RunPylonsd args stdin w = Ok ((res, logstr, err), w') /\
    ncmd w' = S (ncmd w) /\
    events w' = events w ++ [EvExec (args ++ suffix) stdin res e] /\
    (length suffix <= 4)%nat.
Proof.
  intros Hsafe. pose proof (RunPylonsd_spec args stdin w) as H.
  destruct (RunPylonsd args stdin w) as [[[[res logstr] err] w']|msg].
  - destruct H as (np & kp & e & _ & Hn & Hev & _ & _ & Hk & Hnode).
    exists res, logstr, err, w', (np ++ kp), e. split_and!; try done.
    rewrite length_app. subst kp.
    assert (length np <= 2)%nat.
    { destruct (node_shape args && node_configured w).
      - destruct Hnode as (entry & _ & ->). simpl. lia.
      - subst np. simpl. lia. }
    destruct (keyring_shape args); simpl; lia.
  - exfalso. destruct Hsafe as [Hlen|[Hne Hcfg]];
      destruct H as [[-> Hc]|[Hc [-> | ->]]]; simpl in *; try lia; congruence.
Qed.

Lemma GetDaemonStatus_run w :
  exists ds logstr err w' args out e,
    GetDaemonStatus w = Ok ((ds, logstr, err), w') /\
    events w' = events w ++ [EvExec ("status"%string :: args) "" out e] /\
    ncmd w' = S (ncmd w) /\
    CLIOpts w' = CLIOpts w /\
    (is_Some ds <-> err = None) /\
    (args = [] \/ exists entry, args = ["--node"%string; entry]).
Proof.
  unfold GetDaemonStatus, ibind.
  pose proof (RunPylonsd_spec ["status"%string] "" w) as HR.
  destruct (RunPylonsd ["status"%string] "" w) as [[[[res logstr] err] w1]|msg].
  2: { destruct HR as [[? _]|[_ [?|?]]]; discriminate. }
  destruct HR as (np & kp & e & Hopts & Hn & Hev & -> & _ & Hk & Hnode).
  simpl in Hk. subst kp. rewrite app_nil_r in Hev.
  assert (Hnp : np = [] \/ exists entry, np = ["--node"%string; entry]).
  { destruct (_ && _); [|by left]. destruct Hnode as (entry & _ & ->). eauto. }
  destruct e as [e|]; simpl.
  - eexists _, _, _, _, np, res, (Some e). split; [reflexivity|].
    split_and!; try done; split; first [done | by intros [? ?] | by eexists].
  - destruct (UnmarshalStatus res) as [ds|e'].
    + eexists _, _, _, _, np, res, None. split; [reflexivity|].
      split_and!; try done; split; first [done | by intros [? ?] | by eexists].
    + eexists _, _, _, _, np, res, None. split; [reflexivity|].
      split_and!; try done; split; first [done | by intros [? ?] | by eexists].
Qed.

(** X3. GetDaemonStatus never panics.  It runs exactly one command, [status]
    followed by nothing or by one [--node] pair and never by the keyring
    flag, leaves the options alone, and returns a status exactly when it
    returns no error. *)
Theorem GetDaemonStatus_one_status_command (w : World) :
  exists ds logstr err w' args out e,
    GetDaemonStatus w = Ok ((ds, logstr, err), w') /\
    events w' = events w ++ [EvExec ("status"%string :: args) "" out e] /\
    ncmd w' = S (ncmd w) /\
    CLIOpts w' = CLIOpts w /\
    (is_Some ds <-> err = None) /\
    (args = [] \/ exists entry, args = ["--node"%string; entry]).
Proof. apply GetDaemonStatus_run. Qed.

Lemma poll_loop_total interval currentBlock (n : nat) :
  forall counter w,
    Z.to_nat (int64 (300 * interval) - counter) = n ->
    exists r w' evs,
      poll_loop interval currentBlock counter w = Ok (r, w') /\
      events w' = events w ++ evs /\
      CLIOpts w' = CLIOpts w /\
      Forall poll_event evs.
Proof.
  induction n as [|n IH]; intros counter w Hn; simp poll_loop;
    destruct (Z_lt_dec counter (int64 (300 * interval))) as [Hlt|Hge]; simpl;
    try lia.
  - exists (Some timeout_error), w, []. by rewrite app_nil_r.
  - destruct (GetDaemonStatus_run w)
      as (ds & logstr & err & w1 & args & out & e & -> & Hev & _ & Hopts & Hds & _).
    assert (Hq : poll_event (EvExec ("status"%string :: args) "" out e)) by done.
    destruct err as [err|].
    { exists (Some err), w1, [EvExec ("status"%string :: args) "" out e].
      split_and!; try done. by constructor. }
    destruct ds as [d|]; [|by destruct (proj2 Hds eq_refl)]. simpl.
    destruct (LatestBlockHeight d >=? int64 (currentBlock + interval)).
    { exists None, w1, [EvExec ("status"%string :: args) "" out e].
      split_and!; try done. by constructor. }
    destruct (IH (counter + 1) {| CLIOpts := CLIOpts w1; ncmd := ncmd w1;
           ndraw := ndraw w1; events := events w1 ++ [EvSleep 100] |})
      as (r & w' & evs & -> & Hevs & Hopts' & HF); [lia|].
    exists r, w', (EvExec ("status"%string :: args) "" out e :: EvSleep 100 :: evs).
    split_and!; try done.
    + rewrite Hevs. simpl. rewrite Hev, <- !app_assoc. done.
    + simpl in Hopts'. congruence.
    + by repeat constructor.
Qed.

(** X4. WaitForBlockInterval never panics, whatever the interval and the
    answers of the node: it returns, never reads through a nil status,
    leaves the options alone, and adds to the trace only [status] queries
    with empty input and sleeps of 100ms. *)
Theorem WaitForBlockInterval_never_panics (interval : Z) (w : World) :
  exists r w' evs,
    WaitForBlockInterval interval w = Ok (r, w') /\
    events w' = events w ++ evs /\
    CLIOpts w' = CLIOpts w /\
    Forall poll_event evs.
Proof.
  unfold WaitForBlockInterval, ibind.
  destruct (GetDaemonStatus_run w)
    as (ds & logstr & err & w1 & args & out & e & -> & Hev & _ & Hopts & Hds & _).
  assert (Hq : poll_event (EvExec ("status"%string :: args) "" out e)) by done.
  destruct err as [err|].
  { exists (Some err), w1, [EvExec ("status"%string :: args) "" out e].
    split_and!; try done. by constructor. }
  destruct ds as [d|]; [|by destruct (proj2 Hds eq_refl)]. cbn -[poll_loop].
  destruct (poll_loop_total interval (LatestBlockHeight d)
              (Z.to_nat (int64 (300 * interval) - 1)) 1 w1 eq_refl)
    as (r & w' & evs & Hrun & Hevs & Hopts' & HF).
  exists r, w', (EvExec ("status"%string :: args) "" out e :: evs).
  split_and!; try done.
  - rewrite Hevs, Hev, <- app_assoc. done.
  - congruence.
  - by constructor.
Qed.

(** X5. When the cap [300 * interval], in 64-bit arithmetic, is at most one
    (an interval of zero or less, or one so large that the product wraps
    around to such a value), WaitForBlockInterval queries the status once
    and never polls: it returns the error of that query if it failed and
    the timeout error otherwise, whatever height was observed. *)
Theorem WaitForBlockInterval_without_polls (interval : Z) (w : World) :
  int64 (300 * interval) <= 1 ->
  exists ev w',
    events w' = events w ++ [ev] /\
    ncmd w' = S (ncmd w) /\
    WaitForBlockInterval interval w
    = Ok (match observation ev with
          | Some (inl e) => Some e
          | _ => Some timeout_error
          end, w').
Proof.
  intros Hcap. unfold WaitForBlockInterval, ibind.
  destruct (GetDaemonStatus_spec w) as (ev & logstr & w1 & Hev & Hobs).
  destruct (GetDaemonStatus_run w)
    as (ds & logstr' & err & w1' & args & out & e & Hrun & _ & Hn & _).
  exists ev, w1.
  destruct (observation ev) as [[e0|h]|]; [| |done].
  - destruct Hobs as [_ Hobs]. rewrite Hobs in Hrun |- *.
    injection Hrun as <- <- <- <-. done.
  - rewrite Hobs in Hrun |- *. injection Hrun as <- <- <- <-.
    cbn -[poll_loop]. simp poll_loop.
    destruct (Z_lt_dec 1 (int64 (300 * interval))); [lia|]. done.
Qed.

End External.

(** *** GetTxHashFromLog *)

Lemma match_here_literal (l : string) (p : list Item) (s : string) r :
  match_here (literal l ++ p) s = Some r -> String.prefix l s = true.
Proof.
  revert s r. induction l as [|c l IH]; intros s r; simpl.
  - destruct s; done.
  - destruct s as [|c' s']; [done|].
    destruct (Ascii.eqb_spec c' c) as [->|]; [|done].
    destruct (match_here _ s') as [r'|] eqn:Hm; [|done].
    intros _. cbn [String.prefix].
    destruct (ascii_dec c c); [|done]. by apply (IH s' r').
Qed.

Lemma FindSubmatch_no_literal (l : string) (p : list Item) (s : string) :
  Contains s l = false -> FindSubmatch (literal l ++ p) s = [].
Proof.
  induction s as [|c s IH]; cbn [Contains FindSubmatch]; intros H;
    apply orb_false_elim in H as [Hp Hc];
    destruct (match_here (literal l ++ p) _) as [[m gs]|] eqn:Hm; auto;
    apply match_here_literal in Hm; congruence.
Qed.

(** The half of C8 that the code keeps: a text without the txhash key
    yields the empty string. *)
Lemma GetTxHashFromLog_no_field (s : string) :
  Contains s (q "txhash" +:+ ":") = false -> GetTxHashFromLog s = EmptyString.
Proof.
  intros H. unfold GetTxHashFromLog, txhash_pattern.
  by rewrite (FindSubmatch_no_literal _ _ _ H).
Qed.

(** C8. On a one-line response that holds the txhash field and a further
    quoted value, GetTxHashFromLog returns that later value, not the hash:
    the greedy dot-star before the group runs to the last pair of quotes of
    the line. *)
Theorem GetTxHashFromLog_returns_last_quoted :
  let result := "{" +:+ q "txhash" +:+ ": " +:+ q "ABC123" +:+ ", " +:+
                q "raw_log" +:+ ": " +:+ q "[]" +:+ "}" in
  Contains result (q "txhash" +:+ ": " +:+ q "ABC123") = true /\
  GetTxHashFromLog result = "[]"%string.
Proof. split; vm_compute; reflexivity. Qed.

(** *** What GetTxHashFromLog finds *)

Lemma append_cons (x : ascii) (a b : string) :
  String x a +:+ b = String x (a +:+ b).
Proof. reflexivity. Qed.

Lemma append_assoc (a b c : string) : (a +:+ b) +:+ c = a +:+ b +:+ c.
Proof.
  induction a as [|x a IH]; [reflexivity|].
  by rewrite !append_cons, IH.
Qed.

Lemma append_nil_r (a : string) : a +:+ EmptyString = a.
Proof.
  induction a as [|x a IH]; [reflexivity|].
  by rewrite append_cons, IH.
Qed.

Lemma match_here_star_nil b p :
  match_here (AnyStar b :: p) EmptyString = star_stop b p EmptyString.
Proof. reflexivity. Qed.

Lemma match_here_star_cons b p c s :
  match_here (AnyStar b :: p) (String c s)
  = if Ascii.eqb c newline then star_stop b p (String c s)
    else match match_here (AnyStar b :: p) s with
         | Some r => Some (consumed b (String c EmptyString) r)
         | None => star_stop b p (String c s)
         end.
Proof.
  cbn [match_here]. destruct (Ascii.eqb c newline); [reflexivity|].
  fold (match_here p).
  change ((fix star (s0 : string) : option (string * list string) := _) s)
    with (match_here (AnyStar b :: p) s).
  destruct (match_here (AnyStar b :: p) s) as [[m gs]|]; reflexivity.
Qed.

Lemma match_here_lit_ne c p c' s :
  c' <> c -> match_here (Lit c :: p) (String c' s) = None.
Proof. intros H. cbn [match_here]. by destruct (Ascii.eqb_spec c' c). Qed.

Lemma match_here_lit_eq c p s :
  match_here (Lit c :: p) (String c s)
  = consumed false (String c EmptyString) <$> match_here p s.
Proof.
  cbn [match_here]. rewrite Ascii.eqb_refl.
  by destruct (match_here p s) as [[m gs]|].
Qed.

Lemma match_here_lit_line_end c p s :
  c <> newline -> line_end s -> match_here (Lit c :: p) s = None.
Proof.
  intros Hc Hs. destruct s as [|c' s]; [done|]. simpl in Hs. subst c'.
  by apply match_here_lit_ne.
Qed.

Lemma consumed_consumed b l1 l2 r :
  consumed b l1 (consumed b l2 r) = consumed b (l1 +:+ l2) r.
Proof.
  destruct r as [m gs]. unfold consumed. simpl. rewrite append_assoc.
  destruct b; [|done]. destruct gs; [done|]. by rewrite append_assoc.
Qed.

(** A greedy star runs over bytes at which the rest of the pattern cannot
    start. *)
Lemma match_here_star_skip b d p l r :
  lacks d l = true -> lacks newline l = true ->
  match_here (AnyStar b :: Lit d :: p) (l +:+ r)
  = consumed b l <$> match_here (AnyStar b :: Lit d :: p) r.
Proof.
  induction l as [|c l IH]; intros Hd Hn.
  - change (EmptyString +:+ r) with r.
    destruct (match_here (AnyStar b :: Lit d :: p) r) as [[m gs]|]; [|done].
    unfold consumed. simpl. destruct b; [|done]. by destruct gs.
  - simpl in Hd, Hn.
    apply andb_prop in Hd as [Hc Hd], Hn as [Hcn Hn].
    rewrite append_cons, match_here_star_cons.
    apply negb_true_iff in Hcn. rewrite Hcn. rewrite (IH Hd Hn).
    destruct (match_here (AnyStar b :: Lit d :: p) r) as [r0|]; simpl.
    + by rewrite consumed_consumed.
    + unfold star_stop. rewrite match_here_lit_ne; [done|].
      apply negb_true_iff in Hc. by destruct (Ascii.eqb_spec c d).
Qed.

Lemma match_here_star_line_end b p s :
  line_end s -> match_here (AnyStar b :: p) s = star_stop b p s.
Proof.
  destruct s as [|c s]; [done|]. intros Hc. simpl in Hc. subst c.
  by rewrite match_here_star_cons.
Qed.

Lemma dquote_not_newline : dquote <> newline.
Proof. discriminate. Qed.

(** After the key: spaces, the quoted hash, and a tail without quotes up to
    the end of the line. *)
Lemma match_here_quoted_value mid hash tail rest :
  lacks dquote mid = true -> lacks newline mid = true ->
  lacks dquote hash = true -> lacks newline hash = true ->
  lacks dquote tail = true -> lacks newline tail = true ->
  line_end rest ->
  exists m,
    match_here pat_gap (mid +:+ String dquote (hash +:+ String dquote (tail +:+ rest)))
    = Some (m, [hash]).
Proof.
  intros Hmd Hmn Hhd Hhn Htd Htn Hrest.
  set (T := tail +:+ rest). set (X := hash +:+ String dquote T).
  (* the rest of the pattern cannot start in the tail *)
  assert (H4T : match_here pat_group T = None).
  { unfold pat_group, pat_close, T. rewrite match_here_star_skip by done.
    rewrite match_here_star_line_end by done. unfold star_stop.
    by rewrite match_here_lit_line_end by (done || apply dquote_not_newline). }
  assert (H1T : match_here pat_gap T = None).
  { unfold pat_gap, pat_open, T. rewrite match_here_star_skip by done.
    rewrite match_here_star_line_end by done. unfold star_stop.
    by rewrite match_here_lit_line_end by (done || apply dquote_not_newline). }
  (* the group ends at the quote that closes the hash *)
  assert (H3X : match_here pat_group X
                = Some (hash +:+ String dquote EmptyString, [hash])).
  { unfold pat_group, pat_close, X. rewrite match_here_star_skip by done.
    rewrite match_here_star_cons.
    change (Ascii.eqb dquote newline) with false. cbv iota.
    fold pat_close. fold pat_group. rewrite H4T. unfold star_stop, pat_close.
    rewrite match_here_lit_eq. cbn [match_here]. simpl.
    unfold consumed. simpl. by rewrite !append_nil_r. }
  (* the first star cannot run past the quote that opens the hash *)
  assert (H1DT : match_here pat_gap (String dquote T) = None).
  { unfold pat_gap. rewrite match_here_star_cons.
    change (Ascii.eqb dquote newline) with false. cbv iota.
    fold pat_gap. rewrite H1T. unfold star_stop, pat_open.
    rewrite match_here_lit_eq. fold pat_group. by rewrite H4T. }
  assert (H1X : match_here pat_gap X = None).
  { unfold pat_gap, pat_open, X. rewrite match_here_star_skip by done.
    fold pat_open. fold pat_gap. by rewrite H1DT. }
  unfold pat_gap at 1. unfold pat_open at 1.
  rewrite match_here_star_skip by done.
  rewrite match_here_star_cons.
  change (Ascii.eqb dquote newline) with false. cbv iota.
  fold pat_open. fold pat_gap. fold T. fold X. rewrite H1X. unfold star_stop, pat_open.
  rewrite match_here_lit_eq. rewrite H3X. simpl.
  eexists. reflexivity.
Qed.

Lemma match_here_literal_app (l : string) (p : list Item) (s : string) :
  match_here (literal l ++ p) (l +:+ s)
  = consumed false l <$> match_here p s.
Proof.
  induction l as [|c l IH].
  - change (literal EmptyString ++ p) with p. change (EmptyString +:+ s) with s.
    by destruct (match_here p s) as [[m gs]|].
  - change (literal (String c l) ++ p) with (Lit c :: (literal l ++ p)).
    rewrite append_cons, match_here_lit_eq, IH.
    destruct (match_here p s) as [r|]; simpl; [|done].
    by rewrite consumed_consumed.
Qed.

Lemma prefix_app_long (k a b : string) :
  (String.length k <= String.length a)%nat ->
  String.prefix k (a +:+ b) = String.prefix k a.
Proof.
  revert a. induction k as [|c k IH]; intros a Hlen.
  - by destruct a, b.
  - destruct a as [|c' a]; simpl in Hlen; [lia|].
    rewrite append_cons. cbn [String.prefix].
    destruct (ascii_dec c c'); [|done]. apply IH. lia.
Qed.

Lemma length_append (a b : string) :
  String.length (a +:+ b) = (String.length a + String.length b)%nat.
Proof.
  induction a as [|c a IH]; [done|]. rewrite append_cons. simpl. by rewrite IH.
Qed.

(** The search moves past a stretch in which the key does not start. *)
Lemma FindSubmatch_skip (pre key0 : string) (c : ascii) (p : list Item) (r : string) :
  Contains (pre +:+ key0) (key0 +:+ String c EmptyString) = false ->
  FindSubmatch (literal (key0 +:+ String c EmptyString) ++ p)
    (pre +:+ (key0 +:+ String c EmptyString) +:+ r)
  = FindSubmatch (literal (key0 +:+ String c EmptyString) ++ p)
      ((key0 +:+ String c EmptyString) +:+ r).
Proof.
  set (key := key0 +:+ String c EmptyString).
  induction pre as [|x pre IH]; intros H; [done|].
  rewrite append_cons in H. cbn [Contains] in H.
  apply orb_false_elim in H as [Hp Hc].
  rewrite append_cons. cbn [FindSubmatch].
  destruct (match_here (literal key ++ p) _) as [[m gs]|] eqn:Hm; [|by apply IH].
  apply match_here_literal in Hm.
  rewrite <- append_cons in Hm.
  assert (E : String x pre +:+ key +:+ r
              = (String x pre +:+ key0) +:+ (String c EmptyString +:+ r)).
  { unfold key. by rewrite !append_assoc. }
  rewrite E, prefix_app_long in Hm.
  - rewrite append_cons in Hm. congruence.
  - unfold key. rewrite !length_append. simpl. lia.
Qed.

Lemma FindSubmatch_here re s m gs :
  match_here re s = Some (m, gs) -> FindSubmatch re s = m :: gs.
Proof. intros H. destruct s; cbn [FindSubmatch]; by rewrite H. Qed.

(** X6. When the key does not occur before, and the key is followed on its
    line by text without quotes, the quoted hash, and again text without
    quotes up to the end of the line, GetTxHashFromLog returns the hash. *)
Theorem GetTxHashFromLog_finds_quoted_hash (pre mid hash tail rest : string) :
  Contains (pre +:+ q "txhash") (q "txhash" +:+ ":") = false ->
  lacks dquote mid = true -> lacks newline mid = true ->
  lacks dquote hash = true -> lacks newline hash = true ->
  lacks dquote tail = true -> lacks newline tail = true ->
  line_end rest ->
  GetTxHashFromLog
    (pre +:+ (q "txhash" +:+ ":") +:+ mid +:+
     String dquote (hash +:+ String dquote (tail +:+ rest)))
  = hash.
Proof.
  intros Hpre Hmd Hmn Hhd Hhn Htd Htn Hrest.
  destruct (match_here_quoted_value mid hash tail rest) as [m Hm]; try done.
  set (R := mid +:+ String dquote (hash +:+ String dquote (tail +:+ rest))) in *.
  unfold GetTxHashFromLog.
  change txhash_pattern
    with (literal (q "txhash" +:+ String ":"%char EmptyString) ++ pat_gap).
  change (q "txhash" +:+ ":") with (q "txhash" +:+ String ":"%char EmptyString)
    in *.
  rewrite (FindSubmatch_skip pre (q "txhash") ":"%char pat_gap R Hpre).
  rewrite (FindSubmatch_here _ _
             ((q "txhash" +:+ String ":"%char EmptyString) +:+ m) [hash]).
  - reflexivity.
  - by rewrite match_here_literal_app, Hm.
Qed.

Lemma match_here_captures_one_line (p : list Item) :
  forall s m gs,
    match_here p s = Some (m, gs) -> Forall (fun g => lacks newline g = true) gs.
Proof.
  induction p as [|[c|b] p IH]; intros s m gs.
  - intros [= <- <-]. constructor.
  - destruct s as [|c' s]; [done|]. cbn [match_here].
    destruct (Ascii.eqb c' c); [|done].
    destruct (match_here p s) as [[m' gs']|] eqn:Hm; [|done].
    intros [= <- <-]. by eapply IH.
  - assert (Hstop : forall s m gs,
               star_stop b p s = Some (m, gs) ->
               Forall (fun g => lacks newline g = true) gs).
    { intros s0 m0 gs0. unfold star_stop.
      destruct (match_here p s0) as [[m' gs']|] eqn:Hm; [|done].
      intros [= <- <-]. apply IH in Hm. destruct b; [by constructor | done]. }
    revert m gs. induction s as [|c s IHs]; intros m gs.
    + rewrite match_here_star_nil. apply Hstop.
    + rewrite match_here_star_cons.
      destruct (Ascii.eqb c newline) eqn:Hc; [apply Hstop|].
      destruct (match_here (AnyStar b :: p) s) as [[m' gs']|]; [|apply Hstop].
      intros [= <- <-]. specialize (IHs _ _ eq_refl).
      destruct b; [|done]. destruct gs' as [|g gs']; [done|].
      inversion IHs; subst. constructor; [|done].
      simpl. by rewrite Hc.
Qed.

Lemma FindSubmatch_captures_one_line re s :
  Forall (fun g => lacks newline g = true) (tail (FindSubmatch re s)).
Proof.
  induction s as [|c s IH]; cbn [FindSubmatch];
    destruct (match_here re _) as [[m gs]|] eqn:Hm; simpl;
    try done; by eapply match_here_captures_one_line.
Qed.

(** X7. What GetTxHashFromLog returns never holds a newline: the value is
    taken from a single line of the response. *)
Theorem GetTxHashFromLog_one_line (result : string) :
  lacks newline (GetTxHashFromLog result) = true.
Proof.
  unfold GetTxHashFromLog.
  pose proof (FindSubmatch_captures_one_line txhash_pattern result) as H.
  destruct (FindSubmatch txhash_pattern result) as [|m [|g gs]]; try done.
  simpl in *. by inversion H.
Qed.

Lemma prefix_split (k s : string) :
  String.prefix k s = true <-> exists post, s = k +:+ post.
Proof.
  revert s. induction k as [|c k IH]; intros s.
  - split; [intros _; by exists s | intros _; by destruct s].
  - destruct s as [|c' s]; cbn [String.prefix].
    + split; [done | by intros [post ?]].
    + destruct (ascii_dec c c') as [->|Hne].
      * rewrite IH. split; intros [post E]; exists post.
        -- by rewrite append_cons, E.
        -- rewrite append_cons in E. congruence.
      * split; [done|]. intros [post E]. rewrite append_cons in E. congruence.
Qed.

Lemma Contains_split (s k : string) :
  Contains s k = true <-> exists pre post, s = pre +:+ k +:+ post.
Proof.
  induction s as [|c s IH]; cbn [Contains]; rewrite orb_true_iff, prefix_split.
  - split.
    + intros [[post E]|]; [|done]. by exists EmptyString, post.
    + intros (pre & post & E). left. destruct pre; [by exists post | done].
  - rewrite IH. split.
    + intros [[post E]|(pre & post & E)].
      * by exists EmptyString, post.
      * exists (String c pre), post. by rewrite append_cons, E.
    + intros (pre & post & E). destruct pre as [|c' pre].
      * left. by exists post.
      * right. rewrite append_cons in E. exists pre, post. congruence.
Qed.

(** X8. A response in which the key, quote txhash quote colon, occurs
    nowhere yields the empty string. *)
Theorem GetTxHashFromLog_without_key (result : string) :
  (forall pre post, result <> pre +:+ (q "txhash" +:+ ":") +:+ post) ->
  GetTxHashFromLog result = EmptyString.
Proof.
  intros H. apply GetTxHashFromLog_no_field.
  destruct (Contains result _) eqn:Hc; [|done].
  apply Contains_split in Hc as (pre & post & E). by destruct (H pre post).
Qed.

(** X9. Exists answers true exactly when the value is an element of the
    slice. *)
Theorem Exists_iff_elem (slice : list string) (val : string) :
  Exists slice val = true <-> val ∈ slice.
Proof.
  induction slice as [|item rest IH]; simpl.
  - split; [done | by intros ?%elem_of_nil].
  - rewrite elem_of_cons. destruct (String.eqb_spec item val) as [->|Hne].
    + split; auto.
    + rewrite IH. split; [auto | by intros [?|?]].
Qed.

(** *** What GetLogFieldsFromMsgs records *)

Lemma append_inj_l (a b c : string) : a +:+ b = a +:+ c -> b = c.
Proof.
  induction a as [|x a IH]; [done|]. rewrite !append_cons. intros [= ?]. auto.
Qed.

Lemma digits_app a b : digits (a +:+ b) = digits a && digits b.
Proof.
  induction a as [|c a IH]; [done|].
  rewrite append_cons. simpl. by rewrite IH, andb_assoc.
Qed.

Lemma pretty_N_char_digit x : is_digit (pretty_N_char x) = true.
Proof. unfold pretty_N_char. by repeat case_match. Qed.

Lemma pretty_N_go_digits x :
  forall s, exists d, pretty_N_go x s = d +:+ s /\ digits d = true.
Proof.
  induction (N.lt_wf_0 x) as [x _ IH]; intros s.
  assert (x = 0 \/ 0 < x)%N as [->|Hx] by lia.
  - exists EmptyString. by rewrite pretty_N_go_0.
  - rewrite pretty_N_go_step by done.
    destruct (IH (x `div` 10)%N (N.div_lt x 10 Hx eq_refl)
                (String (pretty_N_char (x `mod` 10)) s)) as (d & -> & Hd).
    exists (d +:+ String (pretty_N_char (x `mod` 10)) EmptyString). split.
    + by rewrite append_assoc.
    + rewrite digits_app, Hd. simpl. by rewrite pretty_N_char_digit.
Qed.

Lemma pretty_nat_digits (n : nat) : digits (pretty n) = true.
Proof.
  unfold pretty, pretty_nat, pretty, pretty_N. case_decide; [done|].
  destruct (pretty_N_go_digits (N.of_nat n) EmptyString) as (d & -> & Hd).
  by rewrite digits_app, Hd.
Qed.

(** Two runs of digits, each closed by an underscore, agree when the texts
    they start agree. *)
Lemma digits_underscore_inj a b x y :
  digits a = true -> digits b = true ->
  a +:+ String "_"%char x = b +:+ String "_"%char y -> a = b /\ x = y.
Proof.
  revert b. induction a as [|c a IH]; intros [|c' b] Ha Hb; simpl in *.
  - by intros [= ->].
  - rewrite append_cons. intros [= <- _]. done.
  - rewrite append_cons. intros [= -> _]. done.
  - rewrite !append_cons. intros [= -> E].
    apply andb_prop in Ha as [_ Ha], Hb as [_ Hb].
    destruct (IH b Ha Hb E) as [-> ->]. done.
Qed.

Lemma ikeypref_inj len i j k k' :
  len <> 1%nat ->
  ikeypref len i +:+ k = ikeypref len j +:+ k' -> i = j /\ k = k'.
Proof.
  intros Hlen. unfold ikeypref.
  destruct (Nat.eqb_spec len 1) as [|_]; [done|].
  rewrite !append_assoc. intros E. apply append_inj_l in E.
  change (pretty i +:+ String "_"%char k = pretty j +:+ String "_"%char k') in E.
  apply digits_underscore_inj in E as [E ->];
    [|apply pretty_nat_digits..].
  by apply (inj pretty) in E.
Qed.

Lemma foldl_insert_lookup (l : list (string * FieldValue))
    (f : gmap string FieldValue) (key : string) :
  NoDup l.*1 ->
  foldl (fun f kv => <[kv.1 := kv.2]> f) f l !! key
  = match (list_to_map l : gmap string FieldValue) !! key with
    | Some v => Some v
    | None => f !! key
    end.
Proof.
  revert f. induction l as [|[k v] l IH]; intros f Hnd; simpl.
  - by rewrite lookup_empty.
  - apply NoDup_cons in Hnd as [Hk Hnd]. rewrite IH by done.
    destruct (decide (k = key)) as [->|Hne].
    + rewrite lookup_insert_eq.
      rewrite (not_elem_of_list_to_map_1 _ _ Hk). by rewrite lookup_insert_eq.
    + rewrite !lookup_insert_ne by done. done.
Qed.

Lemma msgs_loop_all_entries len txMsgs idx fields :
  msgs_loop len txMsgs idx fields
  = foldl (fun f kv => <[kv.1 := kv.2]> f) fields (all_entries len txMsgs idx).
Proof.
  revert idx fields. induction txMsgs as [|msg rest IH]; intros idx fields; simpl.
  - done.
  - rewrite IH, foldl_app. f_equal. unfold put_msg.
    generalize (msg_entries msg). intros l. revert fields.
    induction l as [|[k v] l IHl]; intros fields; simpl; [done|]. by rewrite IHl.
Qed.

Lemma elem_of_all_entries len txMsgs idx key v :
  (key, v) ∈ all_entries len txMsgs idx <->
  exists j msg k, txMsgs !! j = Some msg /\ (k, v) ∈ msg_entries msg /\
                  key = ikeypref len (idx + j) +:+ k.
Proof.
  revert idx. induction txMsgs as [|msg rest IH]; intros idx; simpl.
  - split; [by intros ?%elem_of_nil | by intros (j & ? & ? & ? & _)].
  - rewrite elem_of_app, IH, list_elem_of_fmap. split.
    + intros [([k v'] & [= -> ->] & Hin)|(j & msg' & k & Hj & Hin & ->)].
      * exists 0%nat, msg, k. by rewrite Nat.add_0_r.
      * exists (S j), msg', k. split_and!; [done | done |]. f_equal. f_equal. lia.
    + intros ([|j] & msg' & k & Hj & Hin & ->); simpl in Hj.
      * injection Hj as <-. left. exists (k, v). by rewrite Nat.add_0_r.
      * right. exists j, msg', k. split_and!; [done | done |]. f_equal. f_equal. lia.
Qed.

Lemma msg_entries_NoDup msg : NoDup (msg_entries msg).*1.
Proof.
  destruct msg; simpl; apply (bool_decide_unpack _); by vm_compute.
Qed.

Lemma all_entries_NoDup len txMsgs idx :
  len <> 1%nat \/ (length txMsgs <= 1)%nat ->
  NoDup (all_entries len txMsgs idx).*1.
Proof.
  revert idx. induction txMsgs as [|msg rest IH]; intros idx Hlen; simpl.
  - constructor.
  - rewrite fmap_app. apply NoDup_app. split_and!.
    + rewrite <- list_fmap_compose.
      change (fst ∘ prod_map (String.append (ikeypref len idx)) id)
        with (String.append (ikeypref len idx) ∘ (fst : string * FieldValue -> string)).
      rewrite list_fmap_compose. apply NoDup_fmap_2; [|apply msg_entries_NoDup].
      intros a b. apply append_inj_l.
    + intros key Hin1 Hin2.
      apply list_elem_of_fmap in Hin1 as ([key1 v1] & -> & Hin1).
      apply list_elem_of_fmap in Hin1 as ([k1 v1'] & [= -> ->] & Hin1).
      apply list_elem_of_fmap in Hin2 as ([key2 v2] & E & Hin2).
      apply elem_of_all_entries in Hin2 as (j & msg2 & k2 & Hj & _ & ->).
      simpl in E. destruct Hlen as [Hlen|Hlen].
      * apply ikeypref_inj in E as [E _]; [lia | done].
      * simpl in Hlen. destruct rest; [done | simpl in Hlen; lia].
    + apply IH. destruct Hlen as [?|Hlen]; [by left|right]. simpl in Hlen. lia.
Qed.

(** X23. GetLogFieldsFromMsgs loses nothing and invents nothing: the map
    it returns holds a value under a key exactly when some message of the
    list assigns that value under that key, the key being the prefix of the
    message's position (without the position when the list has one message)
    followed by the field's name.  Fields of different messages never
    overwrite one another, and a message of a type the switch does not know
    adds nothing. *)
Theorem GetLogFieldsFromMsgs_lookup (txMsgs : list Msg) (key : string)
    (v : FieldValue) :
  GetLogFieldsFromMsgs txMsgs !! key = Some v <->
  exists idx msg k,
    txMsgs !! idx = Some msg /\
    (k, v) ∈ msg_entries msg /\
    key = ikeypref (length txMsgs) idx +:+ k.
Proof.
  unfold GetLogFieldsFromMsgs. rewrite msgs_loop_all_entries.
  assert (Hnd : NoDup (all_entries (length txMsgs) txMsgs 0).*1).
  { apply all_entries_NoDup. destruct (decide (length txMsgs = 1%nat)); [right; lia | by left]. }
  rewrite foldl_insert_lookup by done. rewrite lookup_empty.
  rewrite <- (elem_of_all_entries (length txMsgs) txMsgs 0 key v).
  rewrite (elem_of_list_to_map _ _ _ Hnd).
  by destruct (list_to_map _ !! key).
Qed.

(** *** Concrete runs *)

(** A node that always answers with height 5, no configured endpoint. *)
Definition steady_node (k : nat) (args : list string) (stdin : string)
  : string * option string := ("5"%string, None).
Definition steady_decode (out : string) : ResultStatus + string :=
  inl {| LatestBlockHeight := 5 |}.
Definition first_draw (k : nat) : nat := 1%nat.

(** A node whose chain moves: height 5 at the first two queries, 6 at the
    third, then the largest 64-bit height; and a decoder that reads any
    decimal height, the largest one included, and refuses other text. *)
Definition moving_node (k : nat) (args : list string) (stdin : string)
  : string * option string :=
  (match k with
   | 0%nat | 1%nat => "5"
   | 2%nat => "6"
   | _ => "9223372036854775807"
   end%string, None).

Definition digit_value (c : ascii) : Z := Z.of_nat (nat_of_ascii c) - 48.

Fixpoint decimal (acc : Z) (s : string) : Z :=
  match s with
  | EmptyString => acc
  | String c s' => decimal (10 * acc + digit_value c) s'
  end.

Definition decimal_decode (out : string) : ResultStatus + string :=
  match out with
  | EmptyString => inr "unexpected end of input"%string
  | _ => if digits out then inl {| LatestBlockHeight := decimal 0 out |}
         else inr "invalid character"%string
  end.

Definition world0 (node : string) : World :=
  {| CLIOpts := {| CustomNode := node; RestEndpoint := "";
                   MaxWaitBlock := 0; MaxBroadcast := 0 |};
     ncmd := 0; ndraw := 0; events := [] |}.

Example RunPylonsd_keys_show :
  RunPylonsd first_draw steady_node ["keys"; "show"; "alice"; "-a"]%string ""
    (world0 "tcp://localhost:26657")
  = Ok (("5"%string,
         q "pylonsd keys show alice -a --keyring-backend test" +:+ " ==>" +:+
           String newline ("5" +:+ String newline EmptyString),
         None),
        {| CLIOpts := CLIOpts (world0 "tcp://localhost:26657");
           ncmd := 1; ndraw := 0;
           events := [EvExec ["keys"; "show"; "alice"; "-a";
                              "--keyring-backend"; "test"]%string "" "5" None] |}).
Proof. reflexivity. Qed.

Example RunPylonsd_query_two_nodes :
  exists r w', RunPylonsd first_draw steady_node
                 ["query"; "account"; "X"]%string "" (world0 "n1:26657,n2:26657")
               = Ok (r, w') /\
               events w' = [EvExec ["query"; "account"; "X"; "--node";
                                    "n2:26657"]%string "" "5" None].
Proof. eexists _, _. split; reflexivity. Qed.

Example WaitForNextBlock_steady_times_out :
  exists w', WaitForNextBlock first_draw steady_node steady_decode (world0 "")
             = Ok (Some timeout_error, w') /\
             length (observations steady_decode (events w')) = 300%nat.
Proof. eexists. split; vm_compute; reflexivity. Qed.

Example decimal_decode_reads_max :
  decimal_decode "9223372036854775807" = inl {| LatestBlockHeight := max_int64 |}.
Proof. reflexivity. Qed.

Example WaitForNextBlock_moving_returns :
  exists w', WaitForNextBlock first_draw moving_node decimal_decode (world0 "")
             = Ok (None, w') /\
             observations decimal_decode (events w') = [inr 5; inr 5; inr 6].
Proof. eexists. split; vm_compute; reflexivity. Qed.

Lemma WaitForBlockInterval_polls_witness :
  1 <= 1 /\ 300 * 1 <= max_int64 /\
  polling_contract first_draw moving_node decimal_decode 1 (world0 "").
Proof.
  split; [lia|]. split; [by vm_compute|].
  apply (WaitForBlockInterval_polls first_draw moving_node decimal_decode 1
           (world0 "")).
  - lia.
  - by vm_compute.
  - intros ds logstr w1 H. vm_compute in H. injection H as <- _ _.
    split; by vm_compute.
Defined.

(** C3 as stated fails for an interval of zero: the status is queried once,
    which is more than [300 * 0] times, and the timeout error comes back
    although the observed height 5 is at least [5 + 0]. *)
Lemma WaitForBlockInterval_zero_interval :
  ~ polling_contract first_draw steady_node steady_decode 0 (world0 "").
Proof.
  intros (r & w' & ev0 & evs & Hrun & Hev & _ & Hlen & _).
  vm_compute in Hrun. injection Hrun as <- <-.
  simpl in Hev. injection Hev as <- <-.
  vm_compute in Hlen. by apply Hlen.
Qed.

(** A three-message transaction. *)
Definition three_msgs : list Msg :=
  [MsgCreateCookbook (FString "book") (FOpaque "cosmos1a"); MsgOther;
   MsgFiatItem (FOpaque "cosmos1b")].

Example GetLogFieldsFromMsgs_three :
  GetLogFieldsFromMsgs three_msgs
  = list_to_map
      [("tx_msg0_type", FString "MsgCreateCookbook");
       ("tx_msg0_cb_name", FString "book");
       ("tx_msg0_sender", FOpaque "cosmos1a");
       ("tx_msg2_type", FString "MsgFiatItem");
       ("tx_msg2_sender", FOpaque "cosmos1b")]%string.
Proof. vm_compute. reflexivity. Qed.

Lemma NodeFlagSetup_entry_comma_free_witness :
  exists entry,
    NodeFlagSetup first_draw ["query"; "account"; "X"]%string
      (world0 "n1:26657,n2:26657")
    = Ok (["query"; "account"; "X"; "--node"; entry]%string,
          drew (world0 "n1:26657,n2:26657")) /\
    entry ∈ Split "n1:26657,n2:26657" ","%char /\
    Forall (fun c => c <> ","%char) (String.list_ascii_of_string entry).
Proof.
  destruct (NodeFlagSetup_entry_comma_free first_draw
              ["query"; "account"; "X"]%string
              ["query"; "account"; "X"; "--node"; "n2:26657"]%string
              (world0 "n1:26657,n2:26657")
              (drew (world0 "n1:26657,n2:26657")) eq_refl)
    as [E|(entry & E & Hin & Hfree)]; [discriminate|].
  exists entry. simpl in E. injection E as <-.
  split; [reflexivity|]. split; [exact Hin | exact Hfree].
Defined.

Lemma RunPylonsd_runs_one_command_witness :
  ["tx"]%string <> [] /\ node_configured (world0 "tcp://localhost:26657") = true /\
  exists res logstr err w' suffix e,
    RunPylonsd first_draw steady_node ["tx"]%string ""
      (world0 "tcp://localhost:26657") = Ok ((res, logstr, err), w') /\
    ncmd w' = 1%nat /\
    events w' = [EvExec (["tx"]%string ++ suffix) "" res e] /\
    (length suffix <= 4)%nat.
Proof.
  split; [discriminate|]. split; [reflexivity|].
  apply (RunPylonsd_runs_one_command first_draw steady_node ["tx"]%string ""
           (world0 "tcp://localhost:26657")).
  right. split; [discriminate | reflexivity].
Defined.

Lemma WaitForBlockInterval_without_polls_witness :
  int64 (300 * 2 ^ 62) <= 1 /\
  exists ev w',
    events w' = [ev] /\
    ncmd w' = 1%nat /\
    WaitForBlockInterval first_draw steady_node steady_decode (2 ^ 62) (world0 "")
    = Ok (match observation steady_decode ev with
          | Some (inl e) => Some e
          | _ => Some timeout_error
          end, w').
Proof.
  split; [by vm_compute|].
  apply (WaitForBlockInterval_without_polls first_draw steady_node steady_decode
           (2 ^ 62) (world0 "")).
  by vm_compute.
Defined.

Lemma GetTxHashFromLog_finds_quoted_hash_witness :
  GetTxHashFromLog
    (("{" +:+ q "height" +:+ ": " +:+ q "5" +:+ ", ") +:+
     (q "txhash" +:+ ":") +:+ " " +:+
     String dquote ("ABC123" +:+ String dquote ("}" +:+ String newline "ok")))
  = "ABC123"%string.
Proof.
  apply (GetTxHashFromLog_finds_quoted_hash
           ("{" +:+ q "height" +:+ ": " +:+ q "5" +:+ ", ")
           " " "ABC123" "}" (String newline "ok")); reflexivity.
Defined.

Lemma GetTxHashFromLog_without_key_witness :
  GetTxHashFromLog "height: 5, txhash: ABC123" = EmptyString.
Proof.
  apply (GetTxHashFromLog_without_key "height: 5, txhash: ABC123").
  intros pre post E.
  assert (H : Contains "height: 5, txhash: ABC123" (q "txhash" +:+ ":") = true).
  { apply Contains_split. by exists pre, post. }
  vm_compute in H. discriminate.
Defined.

End Inttest.

(** ** Package evtesting *)
Module Evtesting.

Definition handle := positive.    (* *testing.T *)
Definition ptr := positive.       (* *T *)
Definition mapref := positive.    (* the address of a map's storage *)
Definition callback := nat.       (* a registered func() *)

(** The [interface{}] values the wrapper is handed. *)
Inductive Value : Type :=
| VString (s : string)
| VError (e : error).

(** [err.Error()] *)
Definition Error (e : error) : string :=
  match e with
  | ErrorsNew msg | ExecError msg | DecodeError msg => msg
  end.

(** The verb [%+v]. *)
Definition render (v : Value) : string :=
  match v with
  | VString s => s
  | VError e => Error e
  end.

(** What a map of type [log.Fields] holds. *)
Abbreviation FieldMap := (gmap string Value).

(** logrus levels, a uint32 counted from PanicLevel. *)
Definition PanicLevel : Z := 0.
Definition FatalLevel : Z := 1.
Definition ErrorLevel : Z := 2.
Definition WarnLevel : Z := 3.
Definition InfoLevel : Z := 4.
Definition DebugLevel : Z := 5.
Definition TraceLevel : Z := 6.

(** T is a modified testing.T.  A value of a Go map type is a reference to
    the map's storage, or nil. *)
Record T := {
  origin : handle;
  useLogPkg : bool;
  fields : option mapref;
  logLevel : Z
}.

Record Frame := {
  File : string;
  Line : Z;
  Function : string
}.

(** The logrus entry methods the wrapper calls. *)
Inductive LogrusCall : Type :=
| LTrace | LTraceln | LDebugln | LInfoln | LWarnln
| LFatal | LFatalf (format : string).

(** Calls that leave the wrapper, in order.  [EvRun] and [EvParallel] are
    recorded when the testing package acts on the call: it starts the
    sub-test [sub] of [h], or [h] signals its parent and waits. *)
Inductive Event : Type :=
| EvListener (event : string) (cb : callback)
| EvLogrus (m : LogrusCall) (data : FieldMap) (args : list Value)
| EvLog (h : handle) (args : list Value)
| EvFatal (h : handle) (args : list Value)
| EvFatalf (h : handle) (format : string) (args : list Value)
| EvRequireTrue (h : handle) (value : bool)
| EvParallel (h : handle)
| EvRun (h : handle) (name : string) (sub : handle).

(** Where a [testing.T] comes from: the zero value [testing.T{}], which
    has neither a parent nor a test runner behind it; a test the runner
    started for a top-level test function; or a sub-test started by Run on
    its parent. *)
Inductive Maker : Type :=
| Zero
| TopLevel
| SubOf (parent : handle).

(** What the testing package keeps for a test, beside its failed mark:
    where it comes from, [finished] (its function returned or it called
    FailNow), [isParallel] (it called Parallel), and the sub-tests that
    wait in Parallel for this test's function to complete. *)
Record Test := {
  maker : Maker;
  finished : bool;
  isParallel : bool;
  parallel_subs : list handle
}.

(** The heap of contexts and of maps, the package variable [listeners], the
    test handles the testing package has marked failed or handed out, what
    it keeps for each test, and the trace of calls. *)
Record State := {
  ctxs : gmap ptr T;
  maps : gmap mapref FieldMap;
  listeners : gmap string callback;
  failed : gset handle;
  next_handle : handle;
  tests : gmap handle Test;
  out : list Event
}.

Definition set_ctxs (f : gmap ptr T -> gmap ptr T) (s : State) : State :=
  {| ctxs := f (ctxs s); maps := maps s; listeners := listeners s;
     failed := failed s; next_handle := next_handle s; tests := tests s;
     out := out s |}.
Definition set_maps (f : gmap mapref FieldMap -> gmap mapref FieldMap)
    (s : State) : State :=
  {| ctxs := ctxs s; maps := f (maps s); listeners := listeners s;
     failed := failed s; next_handle := next_handle s; tests := tests s;
     out := out s |}.
Definition set_failed (f : gset handle -> gset handle) (s : State) : State :=
  {| ctxs := ctxs s; maps := maps s; listeners := listeners s;
     failed := f (failed s); next_handle := next_handle s; tests := tests s;
     out := out s |}.
Definition set_next_handle (h : handle) (s : State) : State :=
  {| ctxs := ctxs s; maps := maps s; listeners := listeners s;
     failed := failed s; next_handle := h; tests := tests s; out := out s |}.
Definition set_tests (f : gmap handle Test -> gmap handle Test) (s : State)
  : State :=
  {| ctxs := ctxs s; maps := maps s; listeners := listeners s;
     failed := failed s; next_handle := next_handle s; tests := f (tests s);
     out := out s |}.
Definition set_out (f : list Event -> list Event) (s : State) : State :=
  {| ctxs := ctxs s; maps := maps s; listeners := listeners s;
     failed := failed s; next_handle := next_handle s; tests := tests s;
     out := f (out s) |}.

(** How a call ends for the goroutine that made it: it returns; the
    goroutine ends (FailNow, or Run after a sub-test failed its parent); the
    process exits (logrus after a fatal entry); a nil pointer is
    dereferenced; the testing package panics; the goroutine waits in the
    Parallel call of test [h], which releases the Run that started [h]; or
    the runner has released the parallel sub-tests of a test whose function
    completed.  From a release on the tests run concurrently, which this
    sequential account does not follow: nothing is said of what comes
    after. *)
Inductive Res (A : Type) : Type :=
| Ret (a : A)
| Stop
| Exit
| NilDeref
| Panicked (msg : string)
| Parked (h : handle)
| Released.
Arguments Ret {A} a.
Arguments Stop {A}.
Arguments Exit {A}.
Arguments NilDeref {A}.
Arguments Panicked {A} msg.
Arguments Parked {A} h.
Arguments Released {A}.

Definition M (A : Type) : Type := State -> Res A * State.

Definition ret {A} (a : A) : M A := fun s => (Ret a, s).
Definition bind {A B} (m : M A) (k : A -> M B) : M B :=
  fun s => match m s with
           | (Ret a, s') => k a s'
           | (Stop, s') => (Stop, s')
           | (Exit, s') => (Exit, s')
           | (NilDeref, s') => (NilDeref, s')
           | (Panicked msg, s') => (Panicked msg, s')
           | (Parked h, s') => (Parked h, s')
           | (Released, s') => (Released, s')
           end.

Notation "x <- m ;; k" := (bind m (fun x => k))
  (at level 100, m at next level, right associativity).
Notation "m ;;; k" := (bind m (fun _ => k))
  (at level 100, right associativity).

Definition exit {A} : M A := fun s => (Exit, s).

Definition emit (e : Event) : M unit :=
  fun s => (Ret tt, set_out (fun o => o ++ [e]) s).

(** [*t] *)
Definition deref (t : ptr) : M T :=
  fun s => match ctxs s !! t with
           | Some c => (Ret c, s)
           | None => (NilDeref, s)
           end.

(** [&T{...}] *)
Definition alloc_T (c : T) : M ptr :=
  fun s => let p := fresh (dom (ctxs s)) in
           (Ret p, set_ctxs (insert p c) s).

(** A map literal. *)
Definition make_fields (m : FieldMap) : M (option mapref) :=
  fun s => let r := fresh (dom (maps s)) in
           (Ret (Some r), set_maps (insert r m) s).

(** Reading a map; a nil map reads as empty. *)
Definition content (s : State) (r : option mapref) : FieldMap :=
  match r with
  | Some a => default ∅ (maps s !! a)
  | None => ∅
  end.
Definition read_fields (r : option mapref) : M FieldMap :=
  fun s => (Ret (content s r), s).

(** A handle the state says nothing about is that of a top-level test in
    progress. *)
Definition top_level : Test :=
  {| maker := TopLevel; finished := false; isParallel := false;
     parallel_subs := [] |}.

Definition test_of (s : State) (h : handle) : Test :=
  default top_level (tests s !! h).

Definition update_test (h : handle) (f : Test -> Test) (s : State) : State :=
  set_tests (insert h (f (test_of s h))) s.

Definition mark_finished (t : Test) : Test :=
  {| maker := maker t; finished := true; isParallel := isParallel t;
     parallel_subs := parallel_subs t |}.
Definition mark_parallel (t : Test) : Test :=
  {| maker := maker t; finished := finished t; isParallel := true;
     parallel_subs := parallel_subs t |}.
Definition add_parallel_sub (h : handle) (t : Test) : Test :=
  {| maker := maker t; finished := finished t; isParallel := isParallel t;
     parallel_subs := parallel_subs t ++ [h] |}.

(** [testing.T{}]: a zero value, at an address of its own. *)
Definition zero_value : Test :=
  {| maker := Zero; finished := false; isParallel := false;
     parallel_subs := [] |}.

Definition new_handle : M handle :=
  fun s =>
    let h := next_handle s in
    (Ret h, set_tests (insert h zero_value) (set_next_handle (Pos.succ h) s)).

(** The chain of parents of a test, nearest first.  A chain passes through
    recorded sub-tests only, so it is no longer than the record. *)
Fixpoint ancestry (fuel : nat) (ts : gmap handle Test) (h : handle)
  : list handle :=
  match fuel with
  | O => []
  | S n =>
      match maker (default top_level (ts !! h)) with
      | SubOf p => p :: ancestry n ts p
      | _ => []
      end
  end.

Definition ancestors (s : State) (h : handle) : list handle :=
  ancestry (size (tests s)) (tests s) h.

(** [Fail] of the testing package: the test and its parents are marked
    failed. *)
Definition Fail (h : handle) (s : State) : State :=
  set_failed (union (list_to_set (h :: ancestors s h))) s.

(** FailNow on the handle of a test in progress: the test is marked failed
    and finished, and the calling goroutine ends. *)
Definition FailNow {A} (h : handle) : M A :=
  fun s => (Stop, update_test h mark_finished (Fail h s)).

(** NewT is function returns modified T from original testing.T *)
Definition NewT (origin : option handle) : M T :=
  fs <- make_fields ∅ ;;
  match origin with
  | Some h =>
      ret {| origin := h; useLogPkg := false; fields := fs;
             logLevel := DebugLevel |}
  | None =>
      orgT <- new_handle ;;
      ret {| origin := orgT; useLogPkg := true; fields := fs;
             logLevel := TraceLevel |}
  end.

(** WithFields is to manage data in json format *)
Definition WithFields (t : ptr) (fields' : option mapref) : M ptr :=
  c <- deref t ;;
  alloc_T {| fields := fields'; origin := origin c;
             useLogPkg := useLogPkg c; logLevel := logLevel c |}.

(** What Run reports: whether the sub-test has not failed. *)
Definition passed (sub : handle) (s : State) : bool :=
  negb (bool_decide (sub ∈ failed s)).

(** The function of a sub-test is over: the sub-test is finished, and Run
    reports whether it passed, unless sub-tests of it wait in Parallel:
    these are released first, and Run reports when they are done. *)
Definition complete (sub : handle) (s : State) : Res bool * State :=
  match parallel_subs (test_of s sub) with
  | [] => (Ret (passed sub s), update_test sub mark_finished s)
  | _ :: _ => (Released, update_test sub mark_finished s)
  end.

(** What the caller of Run sees of the goroutine of the sub-test.  The
    function returned, or the sub-test called FailNow on itself: the
    sub-test is complete.  The goroutine ended otherwise: when a parent of
    the sub-test is finished, FailNow was called on that parent, the
    sub-test is marked failed and the caller's goroutine ends as well;
    with no finished parent the testing package panics.  The goroutine
    waits in the sub-test's own Parallel: Run reports at once whether the
    sub-test has failed so far.  A panic, an exit, the Parallel call of
    another test or a release are the caller's outcome too. *)
Definition finish_subtest (sub : handle) (r : Res unit * State)
  : Res bool * State :=
  match r with
  | (Ret _, s) => complete sub s
  | (Stop, s) =>
      if finished (test_of s sub) then complete sub s
      else if existsb (fun p => finished (test_of s p)) (ancestors s sub)
      then match parallel_subs (test_of s sub) with
           | [] => (Stop, Fail sub s)
           | _ :: _ => (Released, Fail sub s)
           end
      else (Panicked "test executed panic(nil) or runtime.Goexit", s)
  | (Exit, s) => (Exit, s)
  | (NilDeref, s) => (NilDeref, s)
  | (Panicked msg, s) => (Panicked msg, s)
  | (Parked h, s) =>
      if bool_decide (h = sub) then (Ret (passed sub s), s) else (Parked h, s)
  | (Released, s) => (Released, s)
  end.

(** The start of a sub-test of [h]: a new test at the next handle. *)
Definition started (h : handle) (name : string) (s : State) : State :=
  let sub := next_handle s in
  set_out (fun o => o ++ [EvRun h name sub])
    (set_tests (insert sub {| maker := SubOf h; finished := false;
                              isParallel := false; parallel_subs := [] |})
       (set_next_handle (Pos.succ sub) s)).

(** [origin.Run(name, body)] of the testing package, under the default
    flags (every sub-test is selected, no fail-fast).  On a zero value the
    call dereferences the missing runner and panics before any sub-test
    exists.  Otherwise a new test, a sub-test of [h], runs the body in a
    goroutine of its own, and Run waits for it. *)
Definition testing_Run (h : handle) (name : string) (body : handle -> M unit)
  : M bool :=
  fun s =>
    match maker (test_of s h) with
    | Zero => (NilDeref, s)
    | _ => finish_subtest (next_handle s) (body (next_handle s) (started h name s))
    end.

(** [origin.Parallel()] of the testing package.  A second call panics.  On
    a zero value the call dereferences the missing parent.  Otherwise the
    test joins the sub-tests its parent releases on completion, signals the
    Run that started it, and waits. *)
Definition testing_Parallel (h : handle) : M unit :=
  fun s =>
    if isParallel (test_of s h)
    then (Panicked "testing: t.Parallel called multiple times", s)
    else
      let s1 := update_test h mark_parallel s in
      match maker (test_of s h) with
      | Zero => (NilDeref, s1)
      | TopLevel => (Parked h, set_out (fun o => o ++ [EvParallel h]) s1)
      | SubOf p =>
          (Parked h,
           set_out (fun o => o ++ [EvParallel h])
             (update_test p (add_parallel_sub h) s1))
      end.

(** Run is modified Run *)
Definition Run (t : ptr) (name : string) (f : ptr -> M unit) : M bool :=
  c <- deref t ;;
  testing_Run (origin c) name (fun subt =>
    c' <- deref t ;;
    newT <- alloc_T {| origin := subt; fields := fields c';
                       useLogPkg := useLogPkg c'; logLevel := logLevel c' |} ;;
    f newT).

(** DispatchEvent process events that are related to the event; the
    receiver is not read. *)
Definition DispatchEvent (t : ptr) (event : string) : M unit :=
  fun s => match listeners s !! event with
           | Some listener => emit (EvListener event listener) s
           | None => (Ret tt, s)
           end.

(** Test bodies: what a test does with the contexts it holds. *)
Inductive Call : Type :=
| CLog (args : list Value)
| CInfo (args : list Value)
| CWarn (args : list Value)
| CTrace (args : list Value)
| CDebug (args : list Value)
| CFatal (args : list Value)
| CFatalf (format : string) (args : list Value)
| CMustTrue (value : bool)
| CMustNil (err : option error)
| CParallel
| CDispatchEvent (event : string)
| CFormatFields.

Inductive Script : Type :=
| SDone
| SCall (t : ptr) (c : Call) (k : Script)
| SWithFields (t : ptr) (literal : option FieldMap) (k : ptr -> Script)
| SRun (t : ptr) (name : string) (body : ptr -> Script) (k : bool -> Script).

(** What the Go runtime decides: the order in which [range] yields the keys
    of a map, the path of the wrapper's source file, and the frame of
    [runtime.Callers] itself. *)
Record Runtime := {
  map_range : FieldMap -> list string;
  source_file : string;
  Callers_frame : Frame
}.

Section Wrapper.

Variable rt : Runtime.

(** The frame of a function of this package, at one of its lines. *)
Definition wrapper_frame (function : string) (line : Z) : Frame :=
  {| File := source_file rt; Line := line;
     Function := "github.com/Pylons-tech/pylons_sdk/cmd/evtesting." +:+ function |}.

Definition unknown_frame : Frame :=
  {| File := ""; Line := 0; Function := "unknown" |}.

(** The loop over [frames.Next()] in getFrame. *)
Fixpoint next_frames (frames : list Frame) (frameIndex targetFrameIndex : nat)
    (frame : Frame) : Frame :=
  match frames with
  | [] => frame
  | frameCandidate :: more =>
      if (frameIndex <=? targetFrameIndex)%nat
      then next_frames more (S frameIndex) targetFrameIndex
             (if (frameIndex =? targetFrameIndex)%nat
              then frameCandidate else frame)
      else frame
  end.

(** getFrame; [stack] is the call stack at the call of getFrame, innermost
    frame first. *)
Definition getFrame (skipFrames : nat) (stack : list Frame) : Frame :=
  let targetFrameIndex := (skipFrames + 2)%nat in
  let programCounters :=
    take (targetFrameIndex + 2)
         (Callers_frame rt :: wrapper_frame "getFrame" 79 :: stack) in
  let n := length programCounters in
  let frame := unknown_frame in
  if (0 <? n)%nat
  then next_frames programCounters 0 targetFrameIndex frame
  else frame.

(** [Sprintf("%s:%d", frame.File, frame.Line)] *)
Definition file_line (frame : Frame) : string :=
  File frame +:+ ":" +:+ pretty (Line frame).

(** The rendering loop of FormatFields; a key the map lacks reads as nil. *)
Definition format_fields (data : FieldMap) : string :=
  foldl (fun formated key =>
           formated +:+ " " +:+ key +:+ "=" +:+
           match data !! key with
           | Some v => render v
           | None => "<nil>"
           end)
        EmptyString (map_range rt data).

(** FormatFields renders a single log entry *)
Definition FormatFields (t : ptr) : M string :=
  c <- deref t ;;
  data <- read_fields (fields c) ;;
  ret (format_fields data).

(** The two fields printCallerLine attaches. *)
Definition location_fields (frame : Frame) : FieldMap :=
  {[ "file_line"%string := VString (file_line frame);
     "func"%string := VString (Function frame) ]}.

Definition printCallerLine (t : ptr) (stack : list Frame) : M unit :=
  let frame := getFrame 2 (wrapper_frame "(*T).printCallerLine" 97 :: stack) in
  c <- deref t ;;
  if useLogPkg c then
    let text := file_line frame +:+ " " +:+ Function frame in
    emit (EvLogrus LTrace (location_fields frame) [VString text])
  else
    fs <- make_fields (location_fields frame) ;;
    nT <- WithFields t fs ;;
    line <- FormatFields nT ;;
    emit (EvLog (origin c) [VString line]).

(** Fatal is a modified Fatal; [stack] is the call stack at the call. *)
Definition Fatal (t : ptr) (args : list Value) (stack : list Frame) : M unit :=
  DispatchEvent t "FAIL" ;;;
  printCallerLine t (wrapper_frame "(*T).Fatal" 139 :: stack) ;;;
  c <- deref t ;;
  if useLogPkg c then
    data <- read_fields (fields c) ;;
    emit (EvLogrus LFatal data args) ;;;
    exit
  else
    line <- FormatFields t ;;
    emit (EvLog (origin c) [VString line]) ;;;
    emit (EvFatal (origin c) args) ;;;
    FailNow (origin c).

(** Fatalf is a modified Fatalf *)
Definition Fatalf (t : ptr) (format : string) (args : list Value)
    (stack : list Frame) : M unit :=
  DispatchEvent t "FAIL" ;;;
  printCallerLine t (wrapper_frame "(*T).Fatalf" 151 :: stack) ;;;
  c <- deref t ;;
  if useLogPkg c then
    data <- read_fields (fields c) ;;
    emit (EvLogrus (LFatalf format) data args) ;;;
    exit
  else
    line <- FormatFields t ;;
    emit (EvLog (origin c) [VString line]) ;;;
    emit (EvFatalf (origin c) format args) ;;;
    FailNow (origin c).

(** [require.True(t, value)] *)
Definition require_True (h : handle) (value : bool) : M unit :=
  emit (EvRequireTrue h value) ;;;
  if value then ret tt else FailNow h.

(** MustTrue validate if value is true *)
Definition MustTrue (t : ptr) (value : bool) (stack : list Frame) : M unit :=
  (if negb value then DispatchEvent t "FAIL" else ret tt) ;;;
  c <- deref t ;;
  if useLogPkg c then
    if negb value then
      printCallerLine t (wrapper_frame "(*T).MustTrue" 167 :: stack) ;;;
      emit (EvLogrus LFatal ∅ [VString "MustTrue validation failure"]) ;;;
      exit
    else ret tt
  else require_True (origin c) value.

(** MustNil validate if value is nil *)
Definition MustNil (t : ptr) (err : option error) (stack : list Frame) : M unit :=
  match err with
  | Some e =>
      DispatchEvent t "FAIL" ;;;
      c <- deref t ;;
      if useLogPkg c then
        printCallerLine t (wrapper_frame "(*T).MustNil" 180 :: stack) ;;;
        fs <- make_fields {[ "error"%string := VError e ]} ;;
        nT <- WithFields t fs ;;
        Fatal nT [VString "MustNil validation failure"]
          (wrapper_frame "(*T).MustNil" 183 :: stack)
      else require_True (origin c) false
  | None => ret tt
  end.

(** Parallel is modified Parallel *)
Definition Parallel (t : ptr) : M unit :=
  c <- deref t ;;
  testing_Parallel (origin c).

(** Log is modified Log *)
Definition Log (t : ptr) (args : list Value) : M unit :=
  c <- deref t ;;
  if useLogPkg c then
    data <- read_fields (fields c) ;;
    emit (EvLogrus LInfoln data args)
  else
    line <- FormatFields t ;;
    emit (EvLog (origin c) [VString line]) ;;;
    emit (EvLog (origin c) args).

(** Info is modified Info *)
Definition Info (t : ptr) (args : list Value) : M unit :=
  c <- deref t ;;
  if logLevel c <? InfoLevel then ret tt
  else if useLogPkg c then
    data <- read_fields (fields c) ;;
    emit (EvLogrus LInfoln data args)
  else
    line <- FormatFields t ;;
    emit (EvLog (origin c) [VString line]) ;;;
    emit (EvLog (origin c) args).

(** Warn is modified Info *)
Definition Warn (t : ptr) (args : list Value) (stack : list Frame) : M unit :=
  c <- deref t ;;
  if logLevel c <? WarnLevel then ret tt
  else
    printCallerLine t (wrapper_frame "(*T).Warn" 223 :: stack) ;;;
    if useLogPkg c then
      data <- read_fields (fields c) ;;
      emit (EvLogrus LWarnln data args)
    else
      line <- FormatFields t ;;
      emit (EvLog (origin c) [VString line]) ;;;
      emit (EvLog (origin c) args).

(** Trace is modified Trace *)
Definition Trace (t : ptr) (args : list Value) (stack : list Frame) : M unit :=
  c <- deref t ;;
  if logLevel c <? TraceLevel then ret tt
  else
    printCallerLine t (wrapper_frame "(*T).Trace" 237 :: stack) ;;;
    if useLogPkg c then
      data <- read_fields (fields c) ;;
      emit (EvLogrus LTraceln data args)
    else
      line <- FormatFields t ;;
      emit (EvLog (origin c) [VString line]) ;;;
      emit (EvLog (origin c) args).

(** Debug is modified Debug *)
Definition Debug (t : ptr) (args : list Value) (stack : list Frame) : M unit :=
  c <- deref t ;;
  if logLevel c <? DebugLevel then ret tt
  else
    printCallerLine t (wrapper_frame "(*T).Debug" 251 :: stack) ;;;
    if useLogPkg c then
      data <- read_fields (fields c) ;;
      emit (EvLogrus LDebugln data args)
    else
      line <- FormatFields t ;;
      emit (EvLog (origin c) [VString line]) ;;;
      emit (EvLog (origin c) args).

(** One method call of a test body. *)
Definition call (t : ptr) (c : Call) (stack : list Frame) : M unit :=
  match c with
  | CLog args => Log t args
  | CInfo args => Info t args
  | CWarn args => Warn t args stack
  | CTrace args => Trace t args stack
  | CDebug args => Debug t args stack
  | CFatal args => Fatal t args stack
  | CFatalf format args => Fatalf t format args stack
  | CMustTrue value => MustTrue t value stack
  | CMustNil err => MustNil t err stack
  | CParallel => Parallel t
  | CDispatchEvent event => DispatchEvent t event
  | CFormatFields => FormatFields t ;;; ret tt
  end.

(** Running a test body. *)
Fixpoint exec (p : Script) (stack : list Frame) : M unit :=
  match p with
  | SDone => ret tt
  | SCall t c k => call t c stack ;;; exec k stack
  | SWithFields t literal k =>
      fs <- match literal with
            | Some m => make_fields m
            | None => ret None
            end ;;
      nT <- WithFields t fs ;;
      exec (k nT) stack
  | SRun t name body k =>
      passed <- Run t name (fun subT => exec (body subT) stack) ;;
      exec (k passed) stack
  end.

(** The field set a context carries. *)
Definition fields_of (s : State) (t : ptr) : FieldMap :=
  match ctxs s !! t with
  | Some c => content s (fields c)
  | None => ∅
  end.

(** C1 in the words of the specification: the derived context carries the
    parent's fields merged with the new ones, the new ones winning. *)
Definition merges_parent_fields (s : State) (t : ptr) (f : option mapref) : Prop :=
  exists d s',
    WithFields t f s = (Ret d, s') /\
    fields_of s' d = content s f ∪ fields_of s t.

(** C2 in the words of the specification: below the threshold a logging
    method returns with nothing added to the trace. *)
Definition suppressed_below (severity : Z)
    (method : ptr -> list Value -> list Frame -> M unit) : Prop :=
  forall s t c args stack,
    ctxs s !! t = Some c ->
    logLevel c < severity ->
    exists s', method t args stack s = (Ret tt, s') /\ out s' = out s.

(** A map reference that is nil or points into the store. *)
Definition valid_map (s : State) (r : option mapref) : Prop :=
  match r with
  | Some a => is_Some (maps s !! a)
  | None => True
  end.

(** What DispatchEvent adds to the trace. *)
Definition dispatch_events (s : State) (event : string) : list Event :=
  match listeners s !! event with
  | Some listener => [EvListener event listener]
  | None => []
  end.

(** What printCallerLine adds to the trace for a caller's frame. *)
Definition caller_line_event (c : T) (frame : Frame) : Event :=
  if useLogPkg c
  then EvLogrus LTrace (location_fields frame)
         [VString (file_line frame +:+ " " +:+ Function frame)]
  else EvLog (origin c) [VString (format_fields (location_fields frame))].

(** How often the callback of an event ran. *)
Definition is_listener_run (event : string) (e : Event) : bool :=
  match e with
  | EvListener event' _ => (event' =? event)%string
  | _ => false
  end.
Definition listener_runs (event : string) (evs : list Event) : nat :=
  length (List.filter (is_listener_run event) evs).

(** A computation that leaves every existing context as it is. *)
Definition keeps_contexts {A : Type} (m : M A) : Prop :=
  forall s, ctxs s ⊆ ctxs (m s).2.

(** The later state extends the earlier one: contexts and maps are only
    added, the listeners are the same. *)
Definition grown (s s' : State) : Prop :=
  ctxs s ⊆ ctxs s' /\ maps s ⊆ maps s' /\ listeners s' = listeners s.

(** What a logging method adds to the trace for its message: the entry of
    the structured logger, or the field line and the arguments on the test
    handle. *)
Definition message_events (c : T) (data : FieldMap) (m : LogrusCall)
    (args : list Value) : list Event :=
  if useLogPkg c
  then [EvLogrus m data args]
  else [EvLog (origin c) [VString (format_fields data)]; EvLog (origin c) args].

(** The later state only adds to the earlier one: the trace is extended,
    maps are added but none is changed, failed handles stay failed, handles
    are not handed out twice, and the listeners are the same. *)
Definition extends (s s' : State) : Prop :=
  out s `prefix_of` out s' /\
  maps s ⊆ maps s' /\
  listeners s' = listeners s /\
  failed s ⊆ failed s' /\
  (next_handle s <= next_handle s')%positive.

Definition monotone {A : Type} (m : M A) : Prop :=
  forall s, extends s (m s).2.

(** *** The heap *)

Lemma fresh_ctx (s : State) : ctxs s !! fresh (dom (ctxs s)) = None.
Proof. apply not_elem_of_dom, is_fresh. Qed.

Lemma fresh_map (s : State) : maps s !! fresh (dom (maps s)) = None.
Proof. apply not_elem_of_dom, is_fresh. Qed.

Lemma WithFields_run (s : State) (t : ptr) (f : option mapref) (c : T) :
  ctxs s !! t = Some c ->
  WithFields t f s =
    (Ret (fresh (dom (ctxs s))),
     set_ctxs (insert (fresh (dom (ctxs s)))
                 {| origin := origin c; useLogPkg := useLogPkg c;
                    fields := f; logLevel := logLevel c |}) s).
Proof. intros H. unfold WithFields, bind, deref, alloc_T. by rewrite H. Qed.

Lemma lookup_fresh_ne (s : State) (t : ptr) (c : T) :
  ctxs s !! t = Some c -> fresh (dom (ctxs s)) <> t.
Proof. intros H Heq. rewrite <- Heq, fresh_ctx in H. discriminate. Qed.

(** C5. WithFields leaves the receiver as it was: the call returns a new
    context at another address, the receiver still holds the same record,
    its field set reads as before, and neither the map store nor the trace
    has changed. *)
Theorem WithFields_receiver_unchanged (s : State) (t : ptr)
    (f : option mapref) (c : T) :
  ctxs s !! t = Some c ->
  exists d s',
    WithFields t f s = (Ret d, s') /\
    d <> t /\
    ctxs s' !! t = Some c /\
    fields_of s' t = fields_of s t /\
    maps s' = maps s /\
    out s' = out s.
Proof.
  intros H. eexists _, _. split; [by apply WithFields_run|].
  pose proof (lookup_fresh_ne s t c H) as Hne.
  assert (Ht : ctxs (set_ctxs (insert (fresh (dom (ctxs s)))
                 {| origin := origin c; useLogPkg := useLogPkg c;
                    fields := f; logLevel := logLevel c |}) s) !! t = Some c).
  { simpl. by rewrite lookup_insert_ne. }
  split_and!; try done.
  unfold fields_of. rewrite Ht, H. done.
Qed.

(** C1 (amended). The context WithFields returns carries the field set it
    was given and nothing else: its map is the argument's map, so a key
    that the argument lacks is absent from the derived context whatever the
    parent holds. *)
Theorem WithFields_carries_argument (s : State) (t : ptr)
    (f : option mapref) (c : T) :
  ctxs s !! t = Some c ->
  exists d s' c',
    WithFields t f s = (Ret d, s') /\
    ctxs s' !! d = Some c' /\
    fields c' = f /\
    fields_of s' d = content s f /\
    forall k, content s f !! k = None -> fields_of s' d !! k = None.
Proof.
  intros H. eexists _, _, _. split; [by apply WithFields_run|].
  assert (Hd : forall c0, ctxs (set_ctxs (insert (fresh (dom (ctxs s))) c0) s)
                 !! fresh (dom (ctxs s)) = Some c0).
  { intros c0. simpl. by rewrite lookup_insert_eq. }
  split; [apply Hd|]. split; [done|].
  unfold fields_of. rewrite Hd. simpl. split; [done|auto].
Qed.

(** C2 (amended). Info, Warn, Trace and Debug return at once, in either
    mode, when the context's level is below theirs. *)
Theorem leveled_methods_suppressed :
  suppressed_below InfoLevel (fun t args _ => Info t args) /\
  suppressed_below WarnLevel Warn /\
  suppressed_below TraceLevel Trace /\
  suppressed_below DebugLevel Debug.
Proof.
  split_and!; intros s t c args stack Hc Hlt; exists s;
    unfold Info, Warn, Trace, Debug, bind, deref; rewrite Hc;
    (destruct (logLevel c <? _) eqn:Hlvl; [done | lia]).
Qed.

(** *** Contexts are never written after their construction *)

Lemma keeps_ret {A} (a : A) : keeps_contexts (ret a).
Proof. intros s. done. Qed.

Lemma keeps_bind {A B} (m : M A) (k : A -> M B) :
  keeps_contexts m -> (forall a, keeps_contexts (k a)) ->
  keeps_contexts (bind m k).
Proof.
  intros Hm Hk s. unfold bind. specialize (Hm s).
  destruct (m s) as [[a| | | | | |] s1]; simpl in *; try done.
  etrans; [exact Hm | apply Hk].
Qed.

Lemma keeps_unchanged {A} (m : M A) :
  (forall s, ctxs (m s).2 = ctxs s) -> keeps_contexts m.
Proof. intros H s. by rewrite H. Qed.

Lemma keeps_emit e : keeps_contexts (emit e).
Proof. by apply keeps_unchanged. Qed.

Lemma keeps_deref t : keeps_contexts (deref t).
Proof. apply keeps_unchanged. intros s. unfold deref. by destruct (ctxs s !! t). Qed.

Lemma keeps_alloc_T c : keeps_contexts (alloc_T c).
Proof. intros s. simpl. apply insert_subseteq, fresh_ctx. Qed.

Lemma keeps_make_fields m : keeps_contexts (make_fields m).
Proof. by apply keeps_unchanged. Qed.

Lemma keeps_read_fields r : keeps_contexts (read_fields r).
Proof. by apply keeps_unchanged. Qed.

Lemma keeps_FailNow {A} h : keeps_contexts (@FailNow A h).
Proof. by apply keeps_unchanged. Qed.

Lemma keeps_exit {A} : keeps_contexts (@exit A).
Proof. by apply keeps_unchanged. Qed.

Lemma keeps_DispatchEvent t event : keeps_contexts (DispatchEvent t event).
Proof.
  apply keeps_unchanged. intros s. unfold DispatchEvent.
  by destruct (listeners s !! event).
Qed.

Lemma finish_subtest_ctxs sub r : ctxs (finish_subtest sub r).2 = ctxs r.2.
Proof.
  destruct r as [[[]| | | | | |] s]; simpl; unfold complete;
    repeat case_match; done.
Qed.

Lemma keeps_testing_Run h name body :
  (forall sub, keeps_contexts (body sub)) ->
  keeps_contexts (testing_Run h name body).
Proof.
  intros Hb s. unfold testing_Run.
  destruct (maker (test_of s h)); [done| |];
    rewrite finish_subtest_ctxs; exact (Hb (next_handle s) (started h name s)).
Qed.

Lemma keeps_testing_Parallel h : keeps_contexts (testing_Parallel h).
Proof.
  apply keeps_unchanged. intros s. unfold testing_Parallel.
  repeat case_match; done.
Qed.

Create HintDb keeps.
#[local] Hint Resolve keeps_ret keeps_emit keeps_deref keeps_alloc_T
  keeps_make_fields keeps_read_fields keeps_FailNow keeps_exit
  keeps_DispatchEvent keeps_testing_Parallel : keeps.

Ltac keeps :=
  repeat first
    [ progress auto with keeps
    | apply keeps_bind; [|intros ?]
    | match goal with
      | |- keeps_contexts (if ?b then _ else _) => destruct b
      | |- keeps_contexts (match ?x with _ => _ end) => destruct x
      end ].

Lemma keeps_WithFields t f : keeps_contexts (WithFields t f).
Proof. unfold WithFields. keeps. Qed.

Lemma keeps_FormatFields t : keeps_contexts (FormatFields t).
Proof. unfold FormatFields. keeps. Qed.

#[local] Hint Resolve keeps_WithFields keeps_FormatFields : keeps.

Lemma keeps_printCallerLine t stack : keeps_contexts (printCallerLine t stack).
Proof. unfold printCallerLine. keeps. Qed.

#[local] Hint Resolve keeps_printCallerLine : keeps.

Lemma keeps_Fatal t args stack : keeps_contexts (Fatal t args stack).
Proof. unfold Fatal. keeps. Qed.

#[local] Hint Resolve keeps_Fatal : keeps.

Lemma keeps_call t c stack : keeps_contexts (call t c stack).
Proof.
  destruct c; simpl;
    unfold Log, Info, Warn, Trace, Debug, Fatalf, MustTrue, MustNil,
      require_True, Parallel; keeps.
Qed.

Lemma keeps_Run t name f :
  (forall subT, keeps_contexts (f subT)) -> keeps_contexts (Run t name f).
Proof.
  intros Hf. unfold Run. apply keeps_bind; [keeps|]. intros c.
  apply keeps_testing_Run. intros sub. keeps.
Qed.

Lemma keeps_exec p stack : keeps_contexts (exec p stack).
Proof.
  induction p as [|t c k IH|t literal k IH|t name body IHb k IHk]; simpl.
  - keeps.
  - apply keeps_bind; [apply keeps_call | auto].
  - keeps.
  - apply keeps_bind; [by apply keeps_Run | auto].
Qed.

Lemma Run_zero (s : State) (t : ptr) (name : string) (c : T) :
  ctxs s !! t = Some c ->
  maker (test_of s (origin c)) = Zero ->
  forall f, Run t name f s = (NilDeref, s).
Proof.
  intros H Hz f. unfold Run, bind, deref, testing_Run. by rewrite H, Hz.
Qed.

Lemma Run_child (s : State) (t : ptr) (name : string) (c : T) :
  ctxs s !! t = Some c ->
  maker (test_of s (origin c)) <> Zero ->
  let child := fresh (dom (ctxs s)) in
  forall f,
    Run t name f s =
      finish_subtest (next_handle s)
        (f child
           (set_ctxs (insert child
                        {| origin := next_handle s; fields := fields c;
                           useLogPkg := useLogPkg c; logLevel := logLevel c |})
              (started (origin c) name s))).
Proof.
  intros H Hz child f. unfold Run, bind, deref, testing_Run. rewrite H.
  destruct (maker (test_of s (origin c))); [done| |];
    simpl; rewrite H; done.
Qed.

(** C6. The backend flag and the log level are fixed.  The context
    WithFields returns carries the receiver's flag and level.  Run on a
    context whose handle is a test of the runner starts a sub-test and hands
    its body a child context that carries the receiver's flag and level,
    and what Run returns is what the testing package makes of that body
    applied to that child; on a context whose handle is a zero value, as
    NewT makes without a handle, the testing package panics before a child
    is built, and the state is as before.  And whatever a test body does
    with the wrapper, every context that exists keeps its record. *)
Theorem flag_and_level_fixed (s : State) (t : ptr) (c : T) :
  ctxs s !! t = Some c ->
  (forall f, exists d s' c',
      WithFields t f s = (Ret d, s') /\
      ctxs s' !! d = Some c' /\
      useLogPkg c' = useLogPkg c /\ logLevel c' = logLevel c) /\
  (forall name,
      (maker (test_of s (origin c)) = Zero ->
       forall f, Run t name f s = (NilDeref, s)) /\
      (maker (test_of s (origin c)) <> Zero ->
       exists child s1 c',
         (forall f, Run t name f s
                    = finish_subtest (next_handle s) (f child s1)) /\
         ctxs s1 !! child = Some c' /\
         origin c' = next_handle s /\
         useLogPkg c' = useLogPkg c /\ logLevel c' = logLevel c)) /\
  (forall p stack t0 c0,
      ctxs s !! t0 = Some c0 -> ctxs (exec p stack s).2 !! t0 = Some c0).
Proof.
  intros H. split_and!.
  - intros f. eexists _, _, _. split; [by apply WithFields_run|].
    simpl. rewrite lookup_insert_eq. done.
  - intros name. split.
    + by apply Run_zero.
    + intros Hz. eexists _, _, _.
      split; [apply (Run_child s t name c H Hz)|].
      simpl. rewrite lookup_insert_eq. done.
  - intros p stack t0 c0 H0.
    by apply (lookup_weaken _ _ _ _ H0), keeps_exec.
Qed.

(** *** The fatal paths *)

Lemma grown_refl s : grown s s.
Proof. done. Qed.

Lemma grown_trans s1 s2 s3 : grown s1 s2 -> grown s2 s3 -> grown s1 s3.
Proof.
  intros (? & ? & ?) (? & ? & ?). split_and!; [by etrans | by etrans | congruence].
Qed.

Lemma grown_lookup s s' t c : grown s s' -> ctxs s !! t = Some c -> ctxs s' !! t = Some c.
Proof. intros (H & _) Ht. by eapply lookup_weaken. Qed.

Lemma grown_valid s s' r : grown s s' -> valid_map s r -> valid_map s' r.
Proof.
  intros (_ & H & _). destruct r as [a|]; [|done]. simpl.
  intros [m Hm]. exists m. by eapply lookup_weaken.
Qed.

Lemma grown_content s s' r :
  grown s s' -> valid_map s r -> content s' r = content s r.
Proof.
  intros (_ & H & _). destruct r as [a|]; [|done]. simpl.
  intros [m Hm]. by rewrite Hm, (lookup_weaken _ _ _ _ Hm H).
Qed.

Lemma next_frames_nth frames frameIndex target frame :
  (frameIndex <= target)%nat ->
  next_frames frames frameIndex target frame
  = nth (target - frameIndex) frames frame.
Proof.
  revert frameIndex frame.
  induction frames as [|fc more IH]; intros i frame Hi; cbn [next_frames].
  - by destruct (target - i)%nat.
  - rewrite (proj2 (Nat.leb_le i target)) by lia.
    destruct (Nat.eqb_spec i target) as [->|Hne].
    + rewrite Nat.sub_diag. destruct more as [|fc' more']; cbn [next_frames nth];
        [done|].
      by rewrite (proj2 (Nat.leb_gt (S target) target)) by lia.
    + rewrite IH by lia.
      replace (target - i)%nat with (S (target - S i)) by lia. done.
Qed.

(** getFrame skips its own frame, the frame of [runtime.Callers] and
    [skipFrames] more: it returns the frame that many levels above its
    caller, or the unknown frame when the stack is shorter. *)
Lemma getFrame_nth skipFrames stack :
  getFrame skipFrames stack = nth skipFrames stack unknown_frame.
Proof.
  unfold getFrame.
  replace (skipFrames + 2 + 2)%nat with (S (S (S (S skipFrames)))) by lia.
  cbn [take length]. cbn [Nat.ltb Nat.leb].
  rewrite next_frames_nth by lia. rewrite Nat.sub_0_r.
  replace (skipFrames + 2)%nat with (S (S skipFrames)) by lia.
  cbn [nth]. revert skipFrames.
  induction stack as [|f stack IH]; intros [|k]; simpl; done.
Qed.

Lemma getFrame_caller f2 f3 stack :
  getFrame 2 (f2 :: f3 :: stack) = hd unknown_frame stack.
Proof. rewrite getFrame_nth. by destruct stack. Qed.

Lemma DispatchEvent_run t event s :
  exists s', DispatchEvent t event s = (Ret tt, s') /\
             out s' = out s ++ dispatch_events s event /\ grown s s'.
Proof.
  unfold DispatchEvent, dispatch_events.
  destruct (listeners s !! event); eexists; split_and!; try done.
  simpl. by rewrite app_nil_r.
Qed.

Lemma FormatFields_run s t c :
  ctxs s !! t = Some c ->
  FormatFields t s = (Ret (format_fields (content s (fields c))), s).
Proof. intros H. unfold FormatFields, bind, deref. by rewrite H. Qed.

Lemma printCallerLine_run s t c f3 stack :
  ctxs s !! t = Some c ->
  exists s', printCallerLine t (f3 :: stack) s = (Ret tt, s') /\
             out s' = out s ++ [caller_line_event c (hd unknown_frame stack)] /\
             grown s s'.
Proof.
  intros H. unfold printCallerLine. rewrite getFrame_caller.
  unfold bind at 1. unfold deref. rewrite H. unfold caller_line_event.
  destruct (useLogPkg c) eqn:Hmode.
  - eexists. split_and!; done.
  - unfold bind at 1. unfold make_fields.
    set (lf := location_fields (hd unknown_frame stack)).
    set (s1 := set_maps (insert (fresh (dom (maps s))) lf) s).
    assert (H1 : ctxs s1 !! t = Some c) by done.
    unfold bind at 1. rewrite (WithFields_run s1 t _ c H1).
    set (d := fresh (dom (ctxs s1))).
    set (s2 := set_ctxs _ s1).
    assert (H2 : ctxs s2 !! d
                 = Some {| origin := origin c; useLogPkg := useLogPkg c;
                           fields := Some (fresh (dom (maps s)));
                           logLevel := logLevel c |}).
    { subst s2. simpl. by rewrite lookup_insert_eq. }
    unfold bind. rewrite (FormatFields_run s2 d _ H2). simpl.
    rewrite lookup_insert_eq. simpl.
    eexists. split; [done|]. split; [done|]. unfold grown. simpl.
    split_and!; [apply insert_subseteq; exact (fresh_ctx s1)
                | apply insert_subseteq, fresh_map | done].
Qed.

Lemma Fatal_run s t c args stack :
  ctxs s !! t = Some c -> valid_map s (fields c) ->
  exists s',
    Fatal t args stack s = ((if useLogPkg c then Exit else Stop) : Res unit, s') /\
    out s' = out s ++ dispatch_events s "FAIL" ++
             caller_line_event c (hd unknown_frame stack) ::
             (if useLogPkg c
              then [EvLogrus LFatal (content s (fields c)) args]
              else [EvLog (origin c) [VString (format_fields (content s (fields c)))];
                    EvFatal (origin c) args]).
Proof.
  intros H Hv. unfold Fatal.
  destruct (DispatchEvent_run t "FAIL" s) as (s1 & Hr1 & Ho1 & G1).
  destruct (printCallerLine_run s1 t c (wrapper_frame "(*T).Fatal" 139) stack
              (grown_lookup _ _ _ _ G1 H)) as (s2 & Hr2 & Ho2 & G2).
  pose proof (grown_trans _ _ _ G1 G2) as G.
  pose proof (grown_lookup _ _ _ _ G H) as H2.
  pose proof (grown_content _ _ _ G Hv) as Hc.
  unfold bind at 1. rewrite Hr1. unfold bind at 1. rewrite Hr2.
  unfold bind at 1. unfold deref. rewrite H2.
  destruct (useLogPkg c).
  - eexists. split; [reflexivity|]. simpl.
    rewrite Ho2, Ho1, Hc, <- !app_assoc. done.
  - unfold bind at 1. rewrite (FormatFields_run s2 t c H2).
    eexists. split; [reflexivity|]. simpl.
    rewrite Ho2, Ho1, Hc, <- !app_assoc. done.
Qed.

Lemma Fatalf_run s t c format args stack :
  ctxs s !! t = Some c -> valid_map s (fields c) ->
  exists s',
    Fatalf t format args stack s
      = ((if useLogPkg c then Exit else Stop) : Res unit, s') /\
    out s' = out s ++ dispatch_events s "FAIL" ++
             caller_line_event c (hd unknown_frame stack) ::
             (if useLogPkg c
              then [EvLogrus (LFatalf format) (content s (fields c)) args]
              else [EvLog (origin c) [VString (format_fields (content s (fields c)))];
                    EvFatalf (origin c) format args]).
Proof.
  intros H Hv. unfold Fatalf.
  destruct (DispatchEvent_run t "FAIL" s) as (s1 & Hr1 & Ho1 & G1).
  destruct (printCallerLine_run s1 t c (wrapper_frame "(*T).Fatalf" 151) stack
              (grown_lookup _ _ _ _ G1 H)) as (s2 & Hr2 & Ho2 & G2).
  pose proof (grown_trans _ _ _ G1 G2) as G.
  pose proof (grown_lookup _ _ _ _ G H) as H2.
  pose proof (grown_content _ _ _ G Hv) as Hc.
  unfold bind at 1. rewrite Hr1. unfold bind at 1. rewrite Hr2.
  unfold bind at 1. unfold deref. rewrite H2.
  destruct (useLogPkg c).
  - eexists. split; [reflexivity|]. simpl.
    rewrite Ho2, Ho1, Hc, <- !app_assoc. done.
  - unfold bind at 1. rewrite (FormatFields_run s2 t c H2).
    eexists. split; [reflexivity|]. simpl.
    rewrite Ho2, Ho1, Hc, <- !app_assoc. done.
Qed.

(** C7. Fatal and Fatalf, in either mode and for every argument list, add
    to the trace, in this order: the run of the callback registered under
    FAIL (if one is registered), the caller's location, and then the
    rendered fields with the failure itself: the fatal entry of the
    structured logger, after which the process exits, or the field line and
    the fatal call on the test handle, after which the test stops. *)
Theorem Fatal_dispatches_then_locates (s : State) (t : ptr) (c : T)
    (format : string) (args : list Value) (stack : list Frame) :
  ctxs s !! t = Some c ->
  valid_map s (fields c) ->
  let caller := hd unknown_frame stack in
  let data := content s (fields c) in
  (exists s',
     Fatal t args stack s = ((if useLogPkg c then Exit else Stop) : Res unit, s') /\
     out s' = out s ++ dispatch_events s "FAIL" ++
              caller_line_event c caller ::
              (if useLogPkg c
               then [EvLogrus LFatal data args]
               else [EvLog (origin c) [VString (format_fields data)];
                     EvFatal (origin c) args])) /\
  (exists s',
     Fatalf t format args stack s
       = ((if useLogPkg c then Exit else Stop) : Res unit, s') /\
     out s' = out s ++ dispatch_events s "FAIL" ++
              caller_line_event c caller ::
              (if useLogPkg c
               then [EvLogrus (LFatalf format) data args]
               else [EvLog (origin c) [VString (format_fields data)];
                     EvFatalf (origin c) format args])).
Proof.
  intros H Hv. split; [by apply Fatal_run | by apply Fatalf_run].
Qed.

Lemma listener_runs_app event evs1 evs2 :
  listener_runs event (evs1 ++ evs2)
  = (listener_runs event evs1 + listener_runs event evs2)%nat.
Proof. unfold listener_runs. by rewrite List.filter_app, length_app. Qed.

(** C9. On a standalone context, MustNil of a non-nil error runs the
    callback registered under FAIL twice: once from its own dispatch and
    once from the Fatal call that emits the validation failure. *)
Theorem MustNil_runs_listener_twice (s : State) (t : ptr) (c : T)
    (e : error) (cb : callback) (stack : list Frame) :
  ctxs s !! t = Some c ->
  useLogPkg c = true ->
  listeners s !! "FAIL"%string = Some cb ->
  exists s',
    MustNil t (Some e) stack s = (Exit, s') /\
    out s' = out s ++
      [EvListener "FAIL" cb;
       caller_line_event c (hd unknown_frame stack);
       EvListener "FAIL" cb;
       caller_line_event c (wrapper_frame "(*T).MustNil" 183);
       EvLogrus LFatal {[ "error"%string := VError e ]}
         [VString "MustNil validation failure"]] /\
    listener_runs "FAIL" (out s') = (listener_runs "FAIL" (out s) + 2)%nat.
Proof.
  intros H Hmode Hcb. unfold MustNil.
  destruct (DispatchEvent_run t "FAIL" s) as (s1 & Hr1 & Ho1 & G1).
  pose proof (grown_lookup _ _ _ _ G1 H) as H1.
  destruct (printCallerLine_run s1 t c (wrapper_frame "(*T).MustNil" 180) stack H1)
    as (s2 & Hr2 & Ho2 & G2).
  pose proof (grown_lookup _ _ _ _ G2 H1) as H2.
  unfold bind at 1. rewrite Hr1.
  unfold bind at 1. unfold deref. rewrite H1, Hmode.
  unfold bind at 1. rewrite Hr2.
  unfold bind at 1. unfold make_fields.
  set (r := fresh (dom (maps s2))).
  set (s3 := set_maps (insert r {[ "error"%string := VError e ]}) s2).
  assert (H3 : ctxs s3 !! t = Some c) by done.
  unfold bind. rewrite (WithFields_run s3 t (Some r) c H3).
  set (d := fresh (dom (ctxs s3))).
  set (c' := {| origin := origin c; useLogPkg := useLogPkg c;
                fields := Some r; logLevel := logLevel c |}).
  set (s4 := set_ctxs (insert d c') s3).
  assert (H4 : ctxs s4 !! d = Some c').
  { subst s4. simpl. by rewrite lookup_insert_eq. }
  assert (Hv : valid_map s4 (fields c')).
  { simpl. rewrite lookup_insert_eq. by eexists. }
  destruct (Fatal_run s4 d c' [VString "MustNil validation failure"]
              (wrapper_frame "(*T).MustNil" 183 :: stack) H4 Hv)
    as (s5 & Hr5 & Ho5).
  rewrite Hr5. simpl. rewrite Hmode. exists s5. split; [done|].
  assert (Hl : listeners s4 !! "FAIL"%string = Some cb).
  { destruct G1 as (_ & _ & E1), G2 as (_ & _ & E2).
    change (listeners s4) with (listeners s2). by rewrite E2, E1. }
  assert (Hout : out s5 = out s ++
      [EvListener "FAIL" cb;
       caller_line_event c (hd unknown_frame stack);
       EvListener "FAIL" cb;
       caller_line_event c (wrapper_frame "(*T).MustNil" 183);
       EvLogrus LFatal {[ "error"%string := VError e ]}
         [VString "MustNil validation failure"]]).
  { rewrite Ho5. unfold dispatch_events. rewrite Hl.
    change (out s4) with (out s2). rewrite Ho2, Ho1.
    unfold dispatch_events. rewrite Hcb.
    unfold caller_line_event. simpl. rewrite Hmode, lookup_insert_eq.
    rewrite <- !app_assoc. done. }
  split; [exact Hout|].
  rewrite Hout, listener_runs_app. f_equal.
  unfold caller_line_event. rewrite Hmode. reflexivity.
Qed.

(** *** Further facts about the wrapper *)

(** X10. getFrame returns the frame [skipFrames] levels above its caller,
    and the unknown frame when the stack is not that deep. *)
Theorem getFrame_skips_frames (skipFrames : nat) (stack : list Frame) :
  getFrame skipFrames stack = default unknown_frame (stack !! skipFrames).
Proof.
  rewrite getFrame_nth. revert skipFrames.
  induction stack as [|f stack IH]; intros [|k]; simpl; auto.
Qed.

(** X11. printCallerLine adds one record to the trace, the location of the
    caller of the method that called it, and returns; the receiver, the
    listeners and every map that existed are as before. *)
Theorem printCallerLine_reports_caller (s : State) (t : ptr) (c : T)
    (method : Frame) (stack : list Frame) :
  ctxs s !! t = Some c ->
  exists s',
    printCallerLine t (method :: stack) s = (Ret tt, s') /\
    out s' = out s ++ [caller_line_event c (hd unknown_frame stack)] /\
    ctxs s' !! t = Some c /\
    listeners s' = listeners s /\
    forall r, valid_map s r -> content s' r = content s r.
Proof.
  intros H.
  destruct (printCallerLine_run s t c method stack H) as (s' & Hrun & Hout & G).
  exists s'. split_and!; try done.
  - by eapply grown_lookup.
  - by destruct G as (_ & _ & ?).
  - intros r Hr. by apply grown_content.
Qed.

Lemma message_run (s : State) (t : ptr) (c : T) (m : LogrusCall)
    (args : list Value) :
  ctxs s !! t = Some c ->
  exists s',
    (if useLogPkg c
     then data <- read_fields (fields c) ;; emit (EvLogrus m data args)
     else line <- FormatFields t ;;
          emit (EvLog (origin c) [VString line]) ;;;
          emit (EvLog (origin c) args)) s = (Ret tt, s') /\
    out s' = out s ++ message_events c (content s (fields c)) m args.
Proof.
  intros H. unfold message_events. destruct (useLogPkg c).
  - eexists. split; reflexivity.
  - unfold bind at 1. rewrite (FormatFields_run s t c H).
    eexists. split; [reflexivity|]. simpl. by rewrite <- app_assoc.
Qed.

(** X12. Log, and Info on a context whose level is at least Info, add the
    message to the trace and nothing else: no caller location is
    recorded. *)
Theorem Log_Info_emit_without_location (s : State) (t : ptr) (c : T)
    (args : list Value) :
  ctxs s !! t = Some c ->
  (exists s', Log t args s = (Ret tt, s') /\
              out s' = out s ++ message_events c (content s (fields c)) LInfoln args) /\
  (InfoLevel <= logLevel c ->
   exists s', Info t args s = (Ret tt, s') /\
              out s' = out s ++ message_events c (content s (fields c)) LInfoln args).
Proof.
  intros H. split.
  - unfold Log, bind at 1, deref. rewrite H. by apply message_run.
  - intros Hlvl. unfold Info, bind at 1, deref. rewrite H.
    destruct (Z.ltb_spec (logLevel c) InfoLevel); [lia|]. by apply message_run.
Qed.

Lemma located_message_run (s : State) (t : ptr) (c : T) (m : LogrusCall)
    (args : list Value) (method : Frame) (stack : list Frame) :
  ctxs s !! t = Some c ->
  valid_map s (fields c) ->
  exists s',
    (printCallerLine t (method :: stack) ;;;
     if useLogPkg c
     then data <- read_fields (fields c) ;; emit (EvLogrus m data args)
     else line <- FormatFields t ;;
          emit (EvLog (origin c) [VString line]) ;;;
          emit (EvLog (origin c) args)) s = (Ret tt, s') /\
    out s' = out s ++ caller_line_event c (hd unknown_frame stack) ::
                      message_events c (content s (fields c)) m args.
Proof.
  intros H Hv.
  destruct (printCallerLine_run s t c method stack H) as (s1 & Hr1 & Ho1 & G1).
  destruct (message_run s1 t c m args (grown_lookup _ _ _ _ G1 H))
    as (s2 & Hr2 & Ho2).
  exists s2. unfold bind at 1. rewrite Hr1. split; [exact Hr2|].
  rewrite Ho2, Ho1, (grown_content _ _ _ G1 Hv), <- app_assoc. done.
Qed.

(** X13. Warn, Trace and Debug, on a context whose level is at least
    theirs, first record the location of their caller and then the
    message, in either mode. *)
Theorem Warn_Trace_Debug_emit_with_location (s : State) (t : ptr) (c : T)
    (args : list Value) (stack : list Frame) :
  ctxs s !! t = Some c ->
  valid_map s (fields c) ->
  let located m :=
    out s ++ caller_line_event c (hd unknown_frame stack) ::
             message_events c (content s (fields c)) m args in
  (WarnLevel <= logLevel c ->
   exists s', Warn t args stack s = (Ret tt, s') /\ out s' = located LWarnln) /\
  (TraceLevel <= logLevel c ->
   exists s', Trace t args stack s = (Ret tt, s') /\ out s' = located LTraceln) /\
  (DebugLevel <= logLevel c ->
   exists s', Debug t args stack s = (Ret tt, s') /\ out s' = located LDebugln).
Proof.
  intros H Hv located. split_and!; intros Hlvl;
    unfold Warn, Trace, Debug, bind at 1, deref; rewrite H;
    match goal with
    | |- context [logLevel c <? ?l] =>
        destruct (Z.ltb_spec (logLevel c) l); [lia|]
    end;
    by apply located_message_run.
Qed.

(** X14. MustTrue of true dispatches nothing and returns: on a standalone
    context the trace is unchanged, on a native one the value goes to the
    require primitive of the test handle; no handle is marked failed. *)
Theorem MustTrue_true_passes (s : State) (t : ptr) (c : T) (stack : list Frame) :
  ctxs s !! t = Some c ->
  exists s',
    MustTrue t true stack s = (Ret tt, s') /\
    out s' = out s ++ (if useLogPkg c then [] else [EvRequireTrue (origin c) true]) /\
    failed s' = failed s.
Proof.
  intros H. unfold MustTrue, bind, deref, ret. simpl. rewrite H.
  destruct (useLogPkg c); eexists; split_and!; try reflexivity.
  simpl. by rewrite app_nil_r.
Qed.

(** X15. MustTrue of false runs the FAIL callback once, if one is
    registered, and does not return.  On a standalone context it records the
    caller's location and a fatal entry that carries the fixed message and
    none of the context's fields, and the process exits; on a native one it
    hands false to the require primitive, the handle is marked failed and
    the test stops. *)
Theorem MustTrue_false_fails (s : State) (t : ptr) (c : T) (stack : list Frame) :
  ctxs s !! t = Some c ->
  exists s',
    MustTrue t false stack s
    = ((if useLogPkg c then Exit else Stop) : Res unit, s') /\
    out s' = out s ++ dispatch_events s "FAIL" ++
             (if useLogPkg c
              then [caller_line_event c (hd unknown_frame stack);
                    EvLogrus LFatal ∅ [VString "MustTrue validation failure"]]
              else [EvRequireTrue (origin c) false]) /\
    (useLogPkg c = false -> origin c ∈ failed s').
Proof.
  intros H. unfold MustTrue. cbn [negb].
  destruct (DispatchEvent_run t "FAIL" s) as (s1 & Hr1 & Ho1 & G1).
  pose proof (grown_lookup _ _ _ _ G1 H) as H1.
  unfold bind at 1. rewrite Hr1. unfold bind at 1, deref. rewrite H1.
  destruct (useLogPkg c) eqn:Hmode.
  - destruct (printCallerLine_run s1 t c (wrapper_frame "(*T).MustTrue" 167)
                stack H1) as (s2 & Hr2 & Ho2 & G2).
    unfold bind at 1. rewrite Hr2. eexists. split; [reflexivity|].
    split; [|done]. simpl. unfold caller_line_event in *. rewrite Hmode in *.
    rewrite Ho2, Ho1, <- !app_assoc. done.
  - eexists. split; [reflexivity|]. simpl. split.
    + by rewrite Ho1, <- app_assoc.
    + intros _. set_solver.
Qed.

(** X16. MustNil of nil does nothing at all, whatever the receiver.  MustNil
    of an error on a native context runs the FAIL callback once, if one is
    registered, hands false to the require primitive, marks the handle
    failed and stops the test; the error itself does not reach the
    trace. *)
Theorem MustNil_native (s : State) (t : ptr) (c : T) (e : error)
    (stack : list Frame) :
  ctxs s !! t = Some c ->
  useLogPkg c = false ->
  MustNil t None stack s = (Ret tt, s) /\
  exists s',
    MustNil t (Some e) stack s = (Stop, s') /\
    out s' = out s ++ dispatch_events s "FAIL" ++ [EvRequireTrue (origin c) false] /\
    origin c ∈ failed s' /\
    listener_runs "FAIL" (out s')
    = (listener_runs "FAIL" (out s) + length (dispatch_events s "FAIL"))%nat.
Proof.
  intros H Hmode. split; [done|]. unfold MustNil.
  destruct (DispatchEvent_run t "FAIL" s) as (s1 & Hr1 & Ho1 & G1).
  pose proof (grown_lookup _ _ _ _ G1 H) as H1.
  unfold bind at 1. rewrite Hr1. unfold bind at 1, deref. rewrite H1, Hmode.
  eexists. split; [reflexivity|]. simpl.
  assert (Hout : out s1 ++ [EvRequireTrue (origin c) false]
                 = out s ++ dispatch_events s "FAIL" ++
                   [EvRequireTrue (origin c) false]).
  { by rewrite Ho1, <- app_assoc. }
  split_and!; [exact Hout | set_solver |].
  rewrite Hout, !listener_runs_app. unfold dispatch_events.
  destruct (listeners s !! "FAIL"%string); reflexivity.
Qed.

Lemma Fatal_result (s : State) (t : ptr) (c : T) (args : list Value)
    (stack : list Frame) :
  ctxs s !! t = Some c ->
  (Fatal t args stack s).1 = if useLogPkg c then Exit else Stop.
Proof.
  intros H. unfold Fatal.
  destruct (DispatchEvent_run t "FAIL" s) as (s1 & Hr1 & _ & G1).
  destruct (printCallerLine_run s1 t c (wrapper_frame "(*T).Fatal" 139) stack
              (grown_lookup _ _ _ _ G1 H)) as (s2 & Hr2 & _ & G2).
  pose proof (grown_lookup _ _ _ _ (grown_trans _ _ _ G1 G2) H) as H2.
  unfold bind at 1. rewrite Hr1. unfold bind at 1. rewrite Hr2.
  unfold bind at 1. unfold deref. rewrite H2.
  destruct (useLogPkg c); [done|].
  unfold bind at 1. by rewrite (FormatFields_run s2 t c H2).
Qed.

Lemma Fatalf_result (s : State) (t : ptr) (c : T) (format : string)
    (args : list Value) (stack : list Frame) :
  ctxs s !! t = Some c ->
  (Fatalf t format args stack s).1 = if useLogPkg c then Exit else Stop.
Proof.
  intros H. unfold Fatalf.
  destruct (DispatchEvent_run t "FAIL" s) as (s1 & Hr1 & _ & G1).
  destruct (printCallerLine_run s1 t c (wrapper_frame "(*T).Fatalf" 151) stack
              (grown_lookup _ _ _ _ G1 H)) as (s2 & Hr2 & _ & G2).
  pose proof (grown_lookup _ _ _ _ (grown_trans _ _ _ G1 G2) H) as H2.
  unfold bind at 1. rewrite Hr1. unfold bind at 1. rewrite Hr2.
  unfold bind at 1. unfold deref. rewrite H2.
  destruct (useLogPkg c); [done|].
  unfold bind at 1. by rewrite (FormatFields_run s2 t c H2).
Qed.

(** X17. Fatal and Fatalf never return to their caller, whatever the
    receiver and the state: the process exits, the test stops, or, for a
    nil receiver, the dereference in printCallerLine panics after the FAIL
    event was dispatched. *)
Theorem Fatal_never_returns (s : State) (t : ptr) (format : string)
    (args : list Value) (stack : list Frame) :
  (Fatal t args stack s).1 <> Ret tt /\
  (Fatalf t format args stack s).1 <> Ret tt.
Proof.
  destruct (ctxs s !! t) as [c|] eqn:H.
  - rewrite (Fatal_result s t c args stack H),
            (Fatalf_result s t c format args stack H).
    by destruct (useLogPkg c).
  - unfold Fatal, Fatalf, bind, DispatchEvent, printCallerLine, bind, deref.
    destruct (listeners s !! "FAIL"%string); simpl; rewrite H; done.
Qed.

(** X18. On a context whose handle is a test of the runner, not a zero
    value, the context Run hands to the test body is bound to the new
    handle of the sub-test and shares the parent's field map: it carries
    the same map reference, hence the same field set; the new handle is
    recorded as a sub-test of the parent's handle, and the start of the
    sub-test is all the trace has gained when the body starts. *)
Theorem Run_child_inherits_fields (s : State) (t : ptr) (name : string) (c : T) :
  ctxs s !! t = Some c ->
  maker (test_of s (origin c)) <> Zero ->
  exists child s1 c',
    (forall f, Run t name f s
               = finish_subtest (next_handle s) (f child s1)) /\
    ctxs s1 !! child = Some c' /\
    child <> t /\
    origin c' = next_handle s /\
    fields c' = fields c /\
    fields_of s1 child = fields_of s t /\
    ctxs s1 !! t = Some c /\
    maker (test_of s1 (next_handle s)) = SubOf (origin c) /\
    out s1 = out s ++ [EvRun (origin c) name (next_handle s)].
Proof.
  intros H Hz. eexists _, _, _. split; [apply (Run_child s t name c H Hz)|].
  pose proof (lookup_fresh_ne s t c H) as Hne.
  simpl. rewrite lookup_insert_eq. split_and!; try done.
  - unfold fields_of. simpl. by rewrite lookup_insert_eq, H.
  - by rewrite lookup_insert_ne.
  - unfold test_of. simpl. by rewrite lookup_insert_eq.
Qed.

(** *** Nothing is ever taken back *)

Lemma extends_refl s : extends s s.
Proof. unfold extends. split_and!; first [done | lia]. Qed.

Lemma extends_trans s1 s2 s3 : extends s1 s2 -> extends s2 s3 -> extends s1 s3.
Proof.
  intros (? & ? & ? & ? & ?) (? & ? & ? & ? & ?). unfold extends.
  split_and!; [by etrans | by etrans | congruence | by etrans | lia].
Qed.

Lemma monotone_ret {A} (a : A) : monotone (ret a).
Proof. intros s. apply extends_refl. Qed.

Lemma monotone_bind {A B} (m : M A) (k : A -> M B) :
  monotone m -> (forall a, monotone (k a)) -> monotone (bind m k).
Proof.
  intros Hm Hk s. unfold bind. specialize (Hm s).
  destruct (m s) as [[a| | | | | |] s1]; simpl in *; try done.
  eapply extends_trans; [exact Hm | apply Hk].
Qed.

Lemma monotone_emit e : monotone (emit e).
Proof.
  intros s. unfold extends. simpl.
  split_and!; first [done | lia | by apply prefix_app_r].
Qed.

Lemma monotone_deref t : monotone (deref t).
Proof. intros s. unfold deref. destruct (ctxs s !! t); apply extends_refl. Qed.

Lemma monotone_alloc_T c : monotone (alloc_T c).
Proof. intros s. unfold extends. simpl. split_and!; first [done | lia]. Qed.

Lemma monotone_make_fields m : monotone (make_fields m).
Proof.
  intros s. unfold extends. simpl.
  split_and!; first [done | lia | apply insert_subseteq, fresh_map].
Qed.

Lemma monotone_read_fields r : monotone (read_fields r).
Proof. intros s. apply extends_refl. Qed.

Lemma monotone_FailNow {A} h : monotone (@FailNow A h).
Proof.
  intros s. unfold extends. simpl.
  split_and!; first [done | lia | apply union_subseteq_r].
Qed.

Lemma monotone_exit {A} : monotone (@exit A).
Proof. intros s. apply extends_refl. Qed.

Lemma monotone_DispatchEvent t event : monotone (DispatchEvent t event).
Proof.
  intros s. unfold DispatchEvent.
  destruct (listeners s !! event); [apply monotone_emit | apply extends_refl].
Qed.

Lemma extends_set_tests f s : extends s (set_tests f s).
Proof. unfold extends. simpl. split_and!; first [done | lia]. Qed.

Lemma extends_Fail h s : extends s (Fail h s).
Proof.
  unfold extends, Fail. simpl.
  split_and!; first [done | lia | apply union_subseteq_r].
Qed.

Lemma extends_started h name s : extends s (started h name s).
Proof.
  unfold extends. simpl.
  split_and!; first [done | lia | by apply prefix_app_r].
Qed.

Lemma extends_finish_subtest sub r : extends r.2 (finish_subtest sub r).2.
Proof.
  destruct r as [[[]| | | | | |] s]; simpl; unfold complete;
    repeat case_match; simpl;
    first [ apply extends_refl
          | apply extends_Fail
          | apply (extends_set_tests _ s)
          | apply (extends_trans _ _ _ (extends_Fail sub s)),
              (extends_set_tests _ (Fail sub s)) ].
Qed.

Lemma monotone_testing_Run h name body :
  (forall sub, monotone (body sub)) -> monotone (testing_Run h name body).
Proof.
  intros Hb s. unfold testing_Run.
  destruct (maker (test_of s h)); [apply extends_refl| |];
    (eapply extends_trans; [apply (extends_started h name)|];
     eapply extends_trans; [apply (Hb (next_handle s))|];
     apply extends_finish_subtest).
Qed.

Lemma monotone_testing_Parallel h : monotone (testing_Parallel h).
Proof.
  intros s. unfold testing_Parallel, extends.
  repeat case_match; simpl;
    split_and!; first [done | lia | by apply prefix_app_r].
Qed.

Create HintDb monotone.
#[local] Hint Resolve monotone_ret monotone_emit monotone_deref
  monotone_alloc_T monotone_make_fields monotone_read_fields
  monotone_FailNow monotone_exit monotone_DispatchEvent
  monotone_testing_Parallel : monotone.

Ltac monotone :=
  repeat first
    [ progress auto with monotone
    | apply monotone_bind; [|intros ?]
    | match goal with
      | |- monotone (if ?b then _ else _) => destruct b
      | |- monotone (match ?x with _ => _ end) => destruct x
      end ].

Lemma monotone_WithFields t f : monotone (WithFields t f).
Proof. unfold WithFields. monotone. Qed.

Lemma monotone_FormatFields t : monotone (FormatFields t).
Proof. unfold FormatFields. monotone. Qed.

#[local] Hint Resolve monotone_WithFields monotone_FormatFields : monotone.

Lemma monotone_printCallerLine t stack : monotone (printCallerLine t stack).
Proof. unfold printCallerLine. monotone. Qed.

#[local] Hint Resolve monotone_printCallerLine : monotone.

Lemma monotone_Fatal t args stack : monotone (Fatal t args stack).
Proof. unfold Fatal. monotone. Qed.

#[local] Hint Resolve monotone_Fatal : monotone.

Lemma monotone_call t c stack : monotone (call t c stack).
Proof.
  destruct c; simpl;
    unfold Log, Info, Warn, Trace, Debug, Fatalf, MustTrue, MustNil,
      require_True, Parallel; monotone.
Qed.

Lemma monotone_Run t name f :
  (forall subT, monotone (f subT)) -> monotone (Run t name f).
Proof.
  intros Hf. unfold Run. apply monotone_bind; [monotone|]. intros c.
  apply monotone_testing_Run. intros sub. monotone.
Qed.

Lemma monotone_exec p stack : monotone (exec p stack).
Proof.
  induction p as [|t c k IH|t literal k IH|t name body IHb k IHk]; simpl.
  - monotone.
  - apply monotone_bind; [apply monotone_call | auto].
  - monotone.
  - apply monotone_bind; [by apply monotone_Run | auto].
Qed.

(** X19. Whatever a test body does with the wrapper, nothing is taken
    back: the trace is only extended, every field map that existed still
    holds what it held, the listener table is the same, handles marked
    failed stay failed, and no handle is handed out again. *)
Theorem wrapper_only_adds (p : Script) (stack : list Frame) (s : State) :
  let s' := (exec p stack s).2 in
  out s `prefix_of` out s' /\
  (forall r m, maps s !! r = Some m -> maps s' !! r = Some m) /\
  listeners s' = listeners s /\
  failed s ⊆ failed s' /\
  (next_handle s <= next_handle s')%positive.
Proof.
  destruct (monotone_exec p stack s) as (Ho & Hm & Hl & Hf & Hn).
  split_and!; try done. intros r m Hr. by eapply lookup_weaken.
Qed.

(** *** Construction and sub-tests *)

Lemma NewT_run (s : State) (origin0 : option handle) :
  let r := fresh (dom (maps s)) in
  let s1 := set_maps (insert r ∅) s in
  NewT origin0 s =
    match origin0 with
    | Some h =>
        (Ret {| origin := h; useLogPkg := false; fields := Some r;
                logLevel := DebugLevel |}, s1)
    | None =>
        (Ret {| origin := next_handle s; useLogPkg := true; fields := Some r;
                logLevel := TraceLevel |},
         set_tests (insert (next_handle s) zero_value)
           (set_next_handle (Pos.succ (next_handle s)) s1))
    end.
Proof. by destruct origin0. Qed.

(** X20. A context made by NewT for a live handle is a native one at level
    Debug with an empty field set: once stored, Trace on it is dropped
    without a trace, while Debug records the caller's location, the empty
    field line and the arguments on the handle. *)
Theorem NewT_native_drops_Trace (s : State) (h : handle) :
  exists c s1 t s2,
    NewT (Some h) s = (Ret c, s1) /\
    alloc_T c s1 = (Ret t, s2) /\
    origin c = h /\ useLogPkg c = false /\
    fields_of s2 t = ∅ /\
    out s2 = out s /\
    (forall args stack, Trace t args stack s2 = (Ret tt, s2)) /\
    (forall args stack, exists s3,
        Debug t args stack s2 = (Ret tt, s3) /\
        out s3 = out s2 ++
                 [caller_line_event c (hd unknown_frame stack);
                  EvLog h [VString (format_fields ∅)];
                  EvLog h args]).
Proof.
  eexists _, _, _, _. split; [apply (NewT_run s (Some h))|].
  split; [reflexivity|].
  set (c := {| origin := h; useLogPkg := false;
               fields := Some (fresh (dom (maps s))); logLevel := DebugLevel |}).
  set (s1 := set_maps (insert (fresh (dom (maps s))) ∅) s).
  set (t := fresh (dom (ctxs s1))).
  set (s2 := set_ctxs (insert t c) s1).
  assert (Ht : ctxs s2 !! t = Some c).
  { subst s2. simpl. by rewrite lookup_insert_eq. }
  assert (Hc : content s2 (fields c) = ∅).
  { simpl. by rewrite lookup_insert_eq. }
  split_and!; try done.
  - unfold fields_of. by rewrite Ht.
  - intros args stack. unfold Trace, bind, deref. by rewrite Ht.
  - intros args stack. unfold Debug, bind at 1, deref. rewrite Ht.
    change (logLevel c <? DebugLevel) with false. cbv iota.
    destruct (located_message_run s2 t c LDebugln args
                (wrapper_frame "(*T).Debug" 251) stack Ht) as (s3 & Hr & Ho).
    { simpl. rewrite lookup_insert_eq. by eexists. }
    exists s3. split; [exact Hr|]. by rewrite Ho, Hc.
Qed.

(** X21. A context made by NewT without a handle is a standalone one at
    level Trace, bound to a handle of its own: once stored, even Trace goes
    through, as a location entry followed by the message entry of the
    structured logger, and nothing is logged on a test handle. *)
Theorem NewT_standalone_logs_Trace (s : State) :
  exists c s1 t s2,
    NewT None s = (Ret c, s1) /\
    alloc_T c s1 = (Ret t, s2) /\
    origin c = next_handle s /\ useLogPkg c = true /\
    (next_handle s < next_handle s2)%positive /\
    forall args stack, exists s3,
      Trace t args stack s2 = (Ret tt, s3) /\
      out s3 = out s ++
               [caller_line_event c (hd unknown_frame stack);
                EvLogrus LTraceln ∅ args].
Proof.
  eexists _, _, _, _. split; [apply (NewT_run s None)|].
  split; [reflexivity|].
  set (c := {| origin := next_handle s; useLogPkg := true;
               fields := Some (fresh (dom (maps s))); logLevel := TraceLevel |}).
  set (s1 := set_tests (insert (next_handle s) zero_value)
               (set_next_handle (Pos.succ (next_handle s))
                  (set_maps (insert (fresh (dom (maps s))) ∅) s))).
  set (t := fresh (dom (ctxs s1))).
  set (s2 := set_ctxs (insert t c) s1).
  assert (Ht : ctxs s2 !! t = Some c).
  { subst s2. simpl. by rewrite lookup_insert_eq. }
  assert (Hc : content s2 (fields c) = ∅).
  { simpl. by rewrite lookup_insert_eq. }
  split_and!; try done; [simpl; lia|].
  intros args stack. unfold Trace, bind at 1, deref. rewrite Ht.
  change (logLevel c <? TraceLevel) with false. cbv iota.
  destruct (located_message_run s2 t c LTraceln args
              (wrapper_frame "(*T).Trace" 237) stack Ht) as (s3 & Hr & Ho).
  { simpl. rewrite lookup_insert_eq. by eexists. }
  exists s3. split; [exact Hr|]. by rewrite Ho, Hc.
Qed.

Lemma Fatal_native_state (s : State) (t : ptr) (c : T) (args : list Value)
    (stack : list Frame) :
  ctxs s !! t = Some c -> useLogPkg c = false ->
  exists s',
    (Fatal t args stack s).2
    = update_test (origin c) mark_finished (Fail (origin c) s') /\
    failed s' = failed s /\ tests s' = tests s.
Proof.
  intros H Hmode. unfold Fatal.
  assert (HD : exists s1, DispatchEvent t "FAIL" s = (Ret tt, s1) /\
                          ctxs s1 = ctxs s /\ failed s1 = failed s /\
                          tests s1 = tests s).
  { unfold DispatchEvent. destruct (listeners s !! "FAIL"%string); by eexists. }
  destruct HD as (s1 & Hr1 & Hc1 & Hf1 & Ht1).
  assert (H1 : ctxs s1 !! t = Some c) by by rewrite Hc1.
  assert (HP : exists s2, printCallerLine t
                  (wrapper_frame "(*T).Fatal" 139 :: stack) s1 = (Ret tt, s2) /\
                  ctxs s2 !! t = Some c /\ failed s2 = failed s1 /\
                  tests s2 = tests s1).
  { unfold printCallerLine, bind at 1, deref. rewrite H1, Hmode.
    unfold bind at 1, make_fields.
    set (s1' := set_maps _ s1).
    unfold bind at 1. rewrite (WithFields_run s1' t _ c H1).
    set (s2' := set_ctxs _ s1').
    unfold bind at 1.
    erewrite (FormatFields_run s2'); [|subst s2'; simpl; by rewrite lookup_insert_eq].
    eexists. split; [reflexivity|]. split; [|done].
    simpl. rewrite lookup_insert_ne; [done|]. by apply (lookup_fresh_ne s1' t c). }
  destruct HP as (s2 & Hr2 & H2 & Hf2 & Ht2).
  unfold bind at 1. rewrite Hr1. unfold bind at 1. rewrite Hr2.
  unfold bind at 1, deref. rewrite H2, Hmode.
  unfold bind at 1. rewrite (FormatFields_run s2 t c H2). simpl.
  eexists. split; [reflexivity|]. simpl. split; congruence.
Qed.

Lemma complete_no_subs (sub : handle) (s : State) :
  parallel_subs (test_of s sub) = [] ->
  complete sub s = (Ret (passed sub s), update_test sub mark_finished s).
Proof. intros H. unfold complete. by rewrite H. Qed.

Lemma failed_update_test h f s : failed (update_test h f s) = failed s.
Proof. done. Qed.

Lemma out_update_test h f s : out (update_test h f s) = out s.
Proof. done. Qed.

Lemma ancestors_parent (s : State) (h p : handle) (x : Test) :
  tests s !! h = Some x -> maker x = SubOf p ->
  exists rest, ancestors s h = p :: rest.
Proof.
  intros Hh Hp. unfold ancestors.
  destruct (size (tests s)) as [|n] eqn:Hn.
  - apply map_size_empty_iff in Hn. rewrite Hn in Hh. done.
  - simpl. rewrite Hh. simpl. rewrite Hp. by eexists.
Qed.

(** X22. A Fatal on the child context inside a sub-test reports on the
    sub-test's own handle.  Under a native context whose handle is a test
    of the runner it stops the sub-test only: Run returns false to the
    parent; the testing package has marked failed the sub-test and its
    chain of parents, the parent's handle among them; and the trace gains
    the start of the sub-test, the FAIL callback, the location line, the
    parent's field line and the fatal call, all on the sub-test's handle.
    Under a standalone context on such a handle the same Fatal ends the
    process and Run does not return. *)
Theorem Run_with_failing_body (s : State) (t : ptr) (name : string) (c : T)
    (args : list Value) (stack : list Frame) :
  ctxs s !! t = Some c ->
  valid_map s (fields c) ->
  maker (test_of s (origin c)) <> Zero ->
  let sub := next_handle s in
  let r := Run t name (fun subT => Fatal subT args stack) s in
  if useLogPkg c
  then r.1 = Exit
  else r.1 = Ret false /\
       failed r.2 = list_to_set (sub :: ancestors (started (origin c) name s) sub)
                    ∪ failed s /\
       origin c ∈ failed r.2 /\
       out r.2 = out s ++ EvRun (origin c) name sub ::
                 dispatch_events s "FAIL" ++
                 [EvLog sub [VString (format_fields
                    (location_fields (hd unknown_frame stack)))];
                  EvLog sub [VString (format_fields (content s (fields c)))];
                  EvFatal sub args].
Proof.
  intros H Hv Hz sub r. subst r. rewrite (Run_child s t name c H Hz).
  set (s1 := started (origin c) name s).
  set (child := fresh (dom (ctxs s))).
  set (c' := {| origin := next_handle s; fields := fields c;
                useLogPkg := useLogPkg c; logLevel := logLevel c |}).
  set (s2 := set_ctxs (insert child c') s1).
  assert (H2 : ctxs s2 !! child = Some c').
  { subst s2. simpl. by rewrite lookup_insert_eq. }
  assert (Hv2 : valid_map s2 (fields c')) by done.
  destruct (Fatal_run s2 child c' args stack H2 Hv2) as (s3 & Hr & Ho).
  pose proof (Fatal_native_state s2 child c' args stack H2) as Hst.
  rewrite Hr in Hst. rewrite Hr. cbn [snd] in Hst.
  change (useLogPkg c') with (useLogPkg c) in *.
  destruct (useLogPkg c) eqn:Hmode; [done|].
  destruct (Hst eq_refl) as (s' & Hs3 & Hf' & Ht').
  change (origin c') with sub in *.
  assert (Hsub : tests s' !! sub
                 = Some {| maker := SubOf (origin c); finished := false;
                           isParallel := false; parallel_subs := [] |}).
  { rewrite Ht'. simpl. by rewrite lookup_insert_eq. }
  assert (Hanc : ancestors s' sub = ancestors s1 sub).
  { unfold ancestors. by rewrite Ht'. }
  destruct (ancestors_parent s' sub (origin c) _ Hsub eq_refl) as (rest & Hrest).
  assert (Ht3 : test_of s3 sub
                = mark_finished {| maker := SubOf (origin c); finished := false;
                                   isParallel := false; parallel_subs := [] |}).
  { rewrite Hs3. unfold test_of at 1. simpl. rewrite lookup_insert_eq. simpl.
    unfold test_of. simpl. by rewrite Hsub. }
  assert (Hf3 : failed s3 = list_to_set (sub :: ancestors s1 sub) ∪ failed s).
  { rewrite Hs3. simpl. by rewrite Hanc, Hf'. }
  assert (Hfin : finish_subtest sub (Stop, s3)
                 = (Ret false, update_test sub mark_finished s3)).
  { unfold finish_subtest. rewrite Ht3. cbn [finished mark_finished].
    rewrite (complete_no_subs sub s3) by by rewrite Ht3.
    unfold passed. rewrite Hf3.
    rewrite bool_decide_eq_true_2; [done|].
    apply elem_of_union_l, elem_of_list_to_set, list_elem_of_here. }
  fold sub. rewrite Hfin. cbn [fst snd].
  rewrite (failed_update_test sub mark_finished s3), Hf3.
  split; [done|]. split; [done|]. split.
  { rewrite <- Hanc, Hrest.
    apply elem_of_union_l, elem_of_list_to_set, list_elem_of_further,
      list_elem_of_here. }
  rewrite (out_update_test sub mark_finished s3), Ho. unfold caller_line_event.
  simpl. rewrite <- app_assoc. done.
Qed.

(** X24. A context that NewT makes without a handle is bound to a zero
    value of the testing package: once stored, Run on it panics before a
    sub-test exists and before the body runs, whatever the body, and
    Parallel on it panics as well; neither adds to the trace, and Run
    leaves the whole state as it was. *)
Theorem NewT_standalone_cannot_Run (s : State) :
  exists c s1 t s2,
    NewT None s = (Ret c, s1) /\
    alloc_T c s1 = (Ret t, s2) /\
    maker (test_of s2 (origin c)) = Zero /\
    (forall name f, Run t name f s2 = (NilDeref, s2)) /\
    (Parallel t s2).1 = NilDeref /\
    out (Parallel t s2).2 = out s.
Proof.
  eexists _, _, _, _. split; [apply (NewT_run s None)|].
  split; [reflexivity|].
  set (c := {| origin := next_handle s; useLogPkg := true;
               fields := Some (fresh (dom (maps s))); logLevel := TraceLevel |}).
  set (s1 := set_tests (insert (next_handle s) zero_value)
               (set_next_handle (Pos.succ (next_handle s))
                  (set_maps (insert (fresh (dom (maps s))) ∅) s))).
  set (t := fresh (dom (ctxs s1))).
  set (s2 := set_ctxs (insert t c) s1).
  assert (Ht : ctxs s2 !! t = Some c).
  { subst s2. simpl. by rewrite lookup_insert_eq. }
  assert (Hz : test_of s2 (origin c) = zero_value).
  { unfold test_of. simpl. by rewrite lookup_insert_eq. }
  split; [by rewrite Hz|]. split.
  - intros name f. apply (Run_zero s2 t name c Ht). by rewrite Hz.
  - unfold Parallel, bind, deref, testing_Parallel. rewrite Ht, Hz. done.
Qed.

(** X25. A sub-test that calls Parallel on its own context releases the Run
    that started it.  On a context whose handle is a test of the runner,
    Run on a body that starts with Parallel returns at that call, whatever
    the body would do next: it reports whether the sub-test's handle was
    failed before, the trace has gained the start of the sub-test and its
    Parallel call only, no handle is newly failed, and the sub-test waits
    among the parallel sub-tests of the parent's handle. *)
Theorem Run_returns_at_Parallel (s : State) (t : ptr) (name : string) (c : T)
    (rest : ptr -> M unit) :
  ctxs s !! t = Some c ->
  maker (test_of s (origin c)) <> Zero ->
  let sub := next_handle s in
  let r := Run t name (fun subT => Parallel subT ;;; rest subT) s in
  r.1 = Ret (passed sub s) /\
  out r.2 = out s ++ [EvRun (origin c) name sub; EvParallel sub] /\
  failed r.2 = failed s /\
  isParallel (test_of r.2 sub) = true /\
  sub ∈ parallel_subs (test_of r.2 (origin c)).
Proof.
  intros H Hz sub r. subst r. rewrite (Run_child s t name c H Hz).
  set (s1 := started (origin c) name s).
  set (child := fresh (dom (ctxs s))).
  set (c' := {| origin := next_handle s; fields := fields c;
                useLogPkg := useLogPkg c; logLevel := logLevel c |}).
  set (s2 := set_ctxs (insert child c') s1).
  assert (H2 : ctxs s2 !! child = Some c').
  { subst s2. simpl. by rewrite lookup_insert_eq. }
  assert (Ht2 : test_of s2 sub
                = {| maker := SubOf (origin c); finished := false;
                     isParallel := false; parallel_subs := [] |}).
  { unfold test_of. simpl. by rewrite lookup_insert_eq. }
  set (s3 := set_out (fun o => o ++ [EvParallel sub])
               (update_test (origin c) (add_parallel_sub sub)
                  (update_test sub mark_parallel s2))).
  assert (Hbody : (Parallel child ;;; rest child) s2 = (Parked sub, s3)).
  { unfold bind at 1. unfold Parallel, bind, deref, testing_Parallel.
    rewrite H2. change (origin c') with sub. by rewrite Ht2. }
  rewrite Hbody. fold sub. unfold finish_subtest.
  rewrite bool_decide_eq_true_2 by done. cbn [fst snd].
  split; [done|]. split; [simpl; by rewrite <- app_assoc|]. split; [done|].
  assert (Hp : test_of s3 (origin c)
               = add_parallel_sub sub (test_of (update_test sub mark_parallel s2)
                                         (origin c))).
  { unfold test_of at 1. simpl. by rewrite lookup_insert_eq. }
  split.
  - destruct (decide (origin c = sub)) as [E|Hne].
    + rewrite <- E, Hp. simpl. rewrite E. unfold test_of. simpl.
      by rewrite lookup_insert_eq.
    + unfold test_of at 1. simpl. rewrite lookup_insert_ne by done.
      by rewrite lookup_insert_eq.
  - rewrite Hp. simpl. apply elem_of_app. right. apply list_elem_of_here.
Qed.

End Wrapper.

(** *** Concrete runs *)

(** A runtime that ranges over a map in the order of its key encoding. *)
Definition runtime0 : Runtime :=
  {| map_range := fun m => (map_to_list m).*1;
     source_file := "cmd/evtesting/testing.go";
     Callers_frame := {| File := "runtime/extern.go"; Line := 0;
                         Function := "runtime.Callers" |} |}.

(** A native-mode context at level Error with one field, on the handle of
    a top-level test, and a context with a nil map on which standalone mode
    is set while its handle is that of another top-level test; a callback
    is registered under FAIL. *)
Definition native_ctx : T :=
  {| origin := 1%positive; useLogPkg := false; fields := Some 1%positive;
     logLevel := ErrorLevel |}.
Definition standalone_ctx : T :=
  {| origin := 2%positive; useLogPkg := true; fields := None;
     logLevel := ErrorLevel |}.
Definition state0 : State :=
  {| ctxs := {[ 1%positive := native_ctx; 2%positive := standalone_ctx ]};
     maps := {[ 1%positive := {[ "a"%string := VString "x" ]};
                2%positive := ∅ ]};
     listeners := {[ "FAIL"%string := 0%nat ]};
     failed := ∅;
     next_handle := 3%positive;
     tests := ∅;
     out := [] |}.
Definition test_site : Frame :=
  {| File := "basic_test.go"; Line := 42; Function := "inttest.TestBasic" |}.

Example Fatal_native_trace :
  out (Fatal runtime0 1%positive [VString "bad"] [test_site] state0).2
  = [EvListener "FAIL" 0%nat;
     EvLog 1%positive [VString " func=inttest.TestBasic file_line=basic_test.go:42"];
     EvLog 1%positive [VString " a=x"];
     EvFatal 1%positive [VString "bad"]].
Proof. vm_compute. reflexivity. Qed.

(** A context made without a handle cannot run a sub-test: the body is
    never entered. *)
Example NewT_nil_then_Run :
  let r := (c <- NewT None ;; t <- alloc_T c ;;
            Run t "sub" (fun subT => Log runtime0 subT [VString "m"])) state0 in
  r.1 = NilDeref /\ out r.2 = [].
Proof. vm_compute. done. Qed.

(** A sub-test that goes parallel and would fail later: Run has returned
    true before, and nothing of the failure is in the trace. *)
Example Parallel_then_Fatal :
  let r := Run 1%positive "sub"
             (fun subT => Parallel subT ;;;
                          Fatal runtime0 subT [VString "bad"] [test_site])
             state0 in
  r.1 = Ret true /\
  out r.2 = [EvRun 1%positive "sub" 3%positive; EvParallel 3%positive] /\
  failed r.2 = ∅.
Proof. vm_compute. done. Qed.

(** When the function of a test with a waiting parallel sub-test is over,
    the runner releases that sub-test, and the account ends there. *)
Example group_of_parallel_subtests :
  (Run 1%positive "group"
     (fun g => Run g "a" (fun a => Parallel a) ;;; ret tt) state0).1
  = Released.
Proof. vm_compute. done. Qed.

(** A sub-test that calls Fatal on its parent's context: the parent is
    failed and finished, the sub-test is marked failed, and Run ends the
    parent's goroutine instead of returning. *)
Example Fatal_on_parent_in_subtest :
  let r := Run 1%positive "sub"
             (fun _ => Fatal runtime0 1%positive [VString "bad"] [test_site])
             state0 in
  r.1 = Stop /\ failed r.2 = {[ 1%positive; 3%positive ]}.
Proof. vm_compute. done. Qed.

Example Trace_suppressed_at_Debug :
  forall c s, NewT (Some 1%positive) state0 = (Ret c, s) ->
    forall t s', alloc_T c s = (Ret t, s') ->
      Trace runtime0 t [VString "m"] [test_site] s' = (Ret tt, s').
Proof.
  intros c s [= <- <-] t s' [= <- <-]. vm_compute. reflexivity.
Qed.

(** C1 as stated fails: the parent holds the key a, the argument is an
    empty map, and the derived context holds no key at all. *)
Lemma WithFields_drops_parent_fields :
  ~ merges_parent_fields state0 1%positive (Some 2%positive).
Proof.
  intros (d & s' & Hrun & Hf).
  rewrite (WithFields_run state0 1%positive _ native_ctx eq_refl) in Hrun.
  injection Hrun as <- <-.
  apply (f_equal (fun m : FieldMap => m !! "a"%string)) in Hf.
  vm_compute in Hf. discriminate.
Qed.

Lemma WithFields_carries_argument_witness :
  ctxs state0 !! 1%positive = Some native_ctx /\
  exists d s' c',
    WithFields 1%positive (Some 2%positive) state0 = (Ret d, s') /\
    ctxs s' !! d = Some c' /\
    fields c' = Some 2%positive /\
    fields_of s' d = content state0 (Some 2%positive) /\
    forall k, content state0 (Some 2%positive) !! k = None ->
              fields_of s' d !! k = None.
Proof.
  split; [reflexivity|].
  apply (WithFields_carries_argument state0 1%positive (Some 2%positive)
           native_ctx).
  reflexivity.
Defined.

Lemma WithFields_receiver_unchanged_witness :
  ctxs state0 !! 1%positive = Some native_ctx /\
  exists d s',
    WithFields 1%positive (Some 2%positive) state0 = (Ret d, s') /\
    d <> 1%positive /\
    ctxs s' !! 1%positive = Some native_ctx /\
    fields_of s' 1%positive = fields_of state0 1%positive /\
    maps s' = maps state0 /\
    out s' = out state0.
Proof.
  split; [reflexivity|].
  apply (WithFields_receiver_unchanged state0 1%positive (Some 2%positive)
           native_ctx).
  reflexivity.
Defined.

(** C2 as stated fails for Log: at level Error, which is below Info, a
    native-mode context still logs the field line and the arguments. *)
Lemma Log_not_suppressed :
  ~ suppressed_below InfoLevel (fun t args _ => Log runtime0 t args).
Proof.
  intros Hc.
  destruct (Hc state0 1%positive native_ctx [VString "m"] [] eq_refl)
    as (s' & Hrun & Hout); [by vm_compute|].
  apply (f_equal (fun r => out r.2)) in Hrun. simpl in Hrun.
  rewrite Hout in Hrun. vm_compute in Hrun. discriminate.
Qed.

Lemma leveled_methods_suppressed_witness :
  logLevel native_ctx < InfoLevel /\
  exists s', Info runtime0 1%positive [VString "m"] state0 = (Ret tt, s') /\
             out s' = out state0.
Proof.
  split; [by vm_compute|].
  destruct (leveled_methods_suppressed runtime0) as [HInfo _].
  apply (HInfo state0 1%positive native_ctx [VString "m"] []).
  - reflexivity.
  - by vm_compute.
Defined.

Lemma flag_and_level_fixed_witness :
  ctxs state0 !! 2%positive = Some standalone_ctx /\
  maker (test_of state0 (origin standalone_ctx)) <> Zero /\
  exists child s1 c',
    (forall f, Run 2%positive "sub" f state0
               = finish_subtest 3%positive (f child s1)) /\
    ctxs s1 !! child = Some c' /\
    origin c' = 3%positive /\
    useLogPkg c' = true /\ logLevel c' = ErrorLevel.
Proof.
  split; [reflexivity|]. split; [by vm_compute|].
  destruct (flag_and_level_fixed runtime0 state0 2%positive standalone_ctx)
    as (_ & HRun & _); [reflexivity|].
  destruct (HRun "sub"%string) as [_ Hlive]. apply Hlive. by vm_compute.
Defined.

Lemma Fatal_dispatches_then_locates_witness :
  ctxs state0 !! 1%positive = Some native_ctx /\
  valid_map state0 (fields native_ctx) /\
  exists s',
    Fatal runtime0 1%positive [VString "bad"] [test_site] state0 = (Stop, s') /\
    out s' = [EvListener "FAIL" 0%nat;
              caller_line_event runtime0 native_ctx test_site;
              EvLog 1%positive [VString (format_fields runtime0
                                           {[ "a"%string := VString "x" ]})];
              EvFatal 1%positive [VString "bad"]].
Proof.
  split; [reflexivity|]. split; [by eexists|].
  destruct (Fatal_dispatches_then_locates runtime0 state0 1%positive native_ctx
              "%s" [VString "bad"] [test_site]) as [HFatal _].
  - reflexivity.
  - by eexists.
  - exact HFatal.
Defined.

Lemma MustNil_runs_listener_twice_witness :
  ctxs state0 !! 2%positive = Some standalone_ctx /\
  useLogPkg standalone_ctx = true /\
  listeners state0 !! "FAIL"%string = Some 0%nat /\
  exists s',
    MustNil runtime0 2%positive (Some (ExecError "exit status 1")) [test_site]
      state0 = (Exit, s') /\
    listener_runs "FAIL" (out s') = 2%nat.
Proof.
  split; [reflexivity|]. split; [reflexivity|]. split; [reflexivity|].
  destruct (MustNil_runs_listener_twice runtime0 state0 2%positive
              standalone_ctx (ExecError "exit status 1") 0%nat [test_site])
    as (s' & Hrun & _ & Hn); [reflexivity..|].
  exists s'. split; [exact Hrun | exact Hn].
Defined.

(** A native-mode context at level Trace. *)
Definition verbose_ctx : T :=
  {| origin := 1%positive; useLogPkg := false; fields := Some 1%positive;
     logLevel := TraceLevel |}.
Definition state1 : State :=
  {| ctxs := {[ 1%positive := verbose_ctx ]};
     maps := {[ 1%positive := {[ "a"%string := VString "x" ]} ]};
     listeners := {[ "FAIL"%string := 0%nat ]};
     failed := ∅;
     next_handle := 2%positive;
     tests := ∅;
     out := [] |}.

Lemma printCallerLine_reports_caller_witness :
  ctxs state0 !! 2%positive = Some standalone_ctx /\
  exists s',
    printCallerLine runtime0 2%positive
      [wrapper_frame runtime0 "(*T).Warn" 223; test_site] state0 = (Ret tt, s') /\
    out s' = [EvLogrus LTrace (location_fields test_site)
                [VString "basic_test.go:42 inttest.TestBasic"]].
Proof.
  split; [reflexivity|].
  destruct (printCallerLine_reports_caller runtime0 state0 2%positive
              standalone_ctx (wrapper_frame runtime0 "(*T).Warn" 223)
              [test_site] eq_refl) as (s' & Hrun & Hout & _).
  exists s'. split; [exact Hrun | exact Hout].
Defined.

Lemma Log_Info_emit_without_location_witness :
  ctxs state1 !! 1%positive = Some verbose_ctx /\
  InfoLevel <= logLevel verbose_ctx /\
  exists s',
    Info runtime0 1%positive [VString "m"] state1 = (Ret tt, s') /\
    out s' = [EvLog 1%positive [VString " a=x"]; EvLog 1%positive [VString "m"]].
Proof.
  split; [reflexivity|]. split; [by vm_compute|].
  destruct (Log_Info_emit_without_location runtime0 state1 1%positive
              verbose_ctx [VString "m"] eq_refl) as [_ HInfo].
  apply HInfo. by vm_compute.
Defined.

Lemma Warn_Trace_Debug_emit_with_location_witness :
  ctxs state1 !! 1%positive = Some verbose_ctx /\
  valid_map state1 (fields verbose_ctx) /\
  TraceLevel <= logLevel verbose_ctx /\
  exists s',
    Trace runtime0 1%positive [VString "m"] [test_site] state1 = (Ret tt, s') /\
    out s' = [caller_line_event runtime0 verbose_ctx test_site;
              EvLog 1%positive [VString " a=x"];
              EvLog 1%positive [VString "m"]].
Proof.
  split; [reflexivity|]. split; [by eexists|]. split; [by vm_compute|].
  destruct (Warn_Trace_Debug_emit_with_location runtime0 state1 1%positive
              verbose_ctx [VString "m"] [test_site]) as (_ & HTrace & _).
  - reflexivity.
  - by eexists.
  - apply HTrace. by vm_compute.
Defined.

Lemma MustTrue_true_passes_witness :
  ctxs state0 !! 1%positive = Some native_ctx /\
  exists s',
    MustTrue runtime0 1%positive true [test_site] state0 = (Ret tt, s') /\
    out s' = [EvRequireTrue 1%positive true] /\
    failed s' = ∅.
Proof.
  split; [reflexivity|].
  apply (MustTrue_true_passes runtime0 state0 1%positive native_ctx [test_site]).
  reflexivity.
Defined.

Lemma MustTrue_false_fails_witness :
  ctxs state0 !! 2%positive = Some standalone_ctx /\
  exists s',
    MustTrue runtime0 2%positive false [test_site] state0 = (Exit, s') /\
    out s' = [EvListener "FAIL" 0%nat;
              caller_line_event runtime0 standalone_ctx test_site;
              EvLogrus LFatal ∅ [VString "MustTrue validation failure"]].
Proof.
  split; [reflexivity|].
  destruct (MustTrue_false_fails runtime0 state0 2%positive standalone_ctx
              [test_site] eq_refl) as (s' & Hrun & Hout & _).
  exists s'. split; [exact Hrun | exact Hout].
Defined.

Lemma MustNil_native_witness :
  ctxs state0 !! 1%positive = Some native_ctx /\
  useLogPkg native_ctx = false /\
  exists s',
    MustNil runtime0 1%positive (Some (ExecError "exit status 1")) [test_site]
      state0 = (Stop, s') /\
    out s' = [EvListener "FAIL" 0%nat; EvRequireTrue 1%positive false] /\
    listener_runs "FAIL" (out s') = 1%nat.
Proof.
  split; [reflexivity|]. split; [reflexivity|].
  destruct (MustNil_native runtime0 state0 1%positive native_ctx
              (ExecError "exit status 1") [test_site] eq_refl eq_refl)
    as (_ & s' & Hrun & Hout & _ & Hn).
  exists s'. split; [exact Hrun|]. split; [exact Hout | exact Hn].
Defined.

Lemma Run_child_inherits_fields_witness :
  ctxs state0 !! 1%positive = Some native_ctx /\
  maker (test_of state0 (origin native_ctx)) <> Zero /\
  exists child s1 c',
    (forall f, Run 1%positive "sub" f state0
               = finish_subtest 3%positive (f child s1)) /\
    ctxs s1 !! child = Some c' /\
    fields c' = Some 1%positive /\
    fields_of s1 child = {[ "a"%string := VString "x" ]} /\
    maker (test_of s1 3%positive) = SubOf 1%positive.
Proof.
  split; [reflexivity|]. split; [by vm_compute|].
  destruct (Run_child_inherits_fields state0 1%positive "sub" native_ctx eq_refl)
    as (child & s1 & c' & HRun & Hc & _ & _ & Hf & Hfs & _ & Hm & _);
    [by vm_compute|].
  exists child, s1, c'. split; [exact HRun|]. split; [exact Hc|].
  split; [exact Hf|]. split; [exact Hfs | exact Hm].
Defined.

Lemma Run_returns_at_Parallel_witness :
  ctxs state0 !! 1%positive = Some native_ctx /\
  maker (test_of state0 (origin native_ctx)) <> Zero /\
  let r := Run 1%positive "sub"
             (fun subT => Parallel subT ;;;
                          Fatal runtime0 subT [VString "bad"] [test_site])
             state0 in
  r.1 = Ret true /\
  out r.2 = [EvRun 1%positive "sub" 3%positive; EvParallel 3%positive].
Proof.
  split; [reflexivity|]. split; [by vm_compute|].
  destruct (Run_returns_at_Parallel state0 1%positive "sub" native_ctx
              (fun subT => Fatal runtime0 subT [VString "bad"] [test_site]))
    as (Hres & Hout & _).
  - reflexivity.
  - by vm_compute.
  - split; [exact Hres | exact Hout].
Defined.

Lemma Run_with_failing_body_witness :
  ctxs state0 !! 1%positive = Some native_ctx /\
  valid_map state0 (fields native_ctx) /\
  maker (test_of state0 (origin native_ctx)) <> Zero /\
  (Run 1%positive "sub"
     (fun subT => Fatal runtime0 subT [VString "bad"] [test_site]) state0).1
  = Ret false.
Proof.
  split; [reflexivity|]. split; [by eexists|]. split; [by vm_compute|].
  destruct (Run_with_failing_body runtime0 state0 1%positive "sub" native_ctx
              [VString "bad"] [test_site]) as (Hres & _).
  - reflexivity.
  - by eexists.
  - by vm_compute.
  - exact Hres.
Defined.

End Evtesting.
